(** * Quotes scraper: crawl, extract, dedupe, link, persist

    A shallow embedding of the five scripts of the repository
    ([main.py], [main_asincio.py], [main_oop.py], [main_asincio_motor.py],
    [main_oop_asincio.py]) and the properties of their pipeline.

    - Strings are [string] over ASCII characters.
    - A parsed document is a tree of [node]s; the queries the scripts
      use ([find], [find_all], [.text], [.attrs.get]) are functions on it.
    - A fetch reads a fixed [web], a map from URLs to documents.
    - An exception is a value of [exn]; code that may raise returns a
      [result].
    - The document store is a record of two collections; code that
      touches it runs in the state-and-exception monad [DB]. *)

From Stdlib Require Import List String Ascii Bool Arith Lia.
Import ListNotations.
Open Scope string_scope.
Open Scope list_scope.

Set Implicit Arguments.
Set Warnings "-register-all".

(** ** Exceptions and results *)

Inductive exn : Type :=
| ConnectionError   (* the HTTP request raised *)
| AttributeError    (* attribute access on [None] *)
| IndexError        (* list index out of range *)
| NotUniqueError    (* save() against a unique index *)
| TypeError.        (* insert_many([]) *)

Inductive result (A : Type) : Type :=
| Ok (a : A)
| Raise (e : exn).

Arguments Ok {A} a.
Arguments Raise {A} e.

Definition bind {A B : Type} (r : result A) (k : A -> result B) : result B :=
  match r with
  | Ok a => k a
  | Raise e => Raise e
  end.

Declare Scope result_scope.
Delimit Scope result_scope with result.
Notation "'let*' x ':=' c 'in' k" := (bind c (fun x => k))
  (at level 10, x name, c at level 100, k at level 200) : result_scope.
Open Scope result_scope.

(** [None.attr]: using the result of a [find] that found nothing. *)
Definition deref {A : Type} (o : option A) : result A :=
  match o with
  | Some a => Ok a
  | None => Raise AttributeError
  end.

(** ** Strings: [str.strip()] *)

(** The ASCII characters for which [str.isspace] holds. *)
Definition isspace (c : ascii) : bool :=
  let n := nat_of_ascii c in
  ((9 <=? n)%nat && (n <=? 13)%nat) || ((28 <=? n)%nat && (n <=? 32)%nat).

Fixpoint lstrip (s : string) : string :=
  match s with
  | EmptyString => EmptyString
  | String c s' => if isspace c then lstrip s' else s
  end.

Fixpoint rstrip (s : string) : string :=
  match s with
  | EmptyString => EmptyString
  | String c s' =>
      match rstrip s' with
      | EmptyString => if isspace c then EmptyString else String c EmptyString
      | r => String c r
      end
  end.

Definition strip (s : string) : string := rstrip (lstrip s).

Fixpoint all_space (s : string) : bool :=
  match s with
  | EmptyString => true
  | String c s' => isspace c && all_space s'
  end.

Definition first_char (s : string) : option ascii :=
  match s with
  | EmptyString => None
  | String c _ => Some c
  end.

Fixpoint last_char (s : string) : option ascii :=
  match s with
  | EmptyString => None
  | String c EmptyString => Some c
  | String _ s' => last_char s'
  end.

Definition not_space (o : option ascii) : bool :=
  match o with
  | None => true
  | Some c => negb (isspace c)
  end.

(** Truth value of a string in a condition: the empty string is false. *)
Definition truthy (s : string) : bool :=
  match s with
  | EmptyString => false
  | String _ _ => true
  end.

(** ** Parsed documents

    The query surface of the markup parser the scripts rely on.  A tag
    carries its name, the values of its [class] attribute (empty when the
    attribute is absent), its other attributes and its children. *)

Inductive node : Type :=
| NavigableString (s : string)
| Tag (name : string) (class_ : list string)
      (attrs : list (string * string)) (contents : list node).

(** [tag.text]: all strings below the tag, concatenated. *)
Fixpoint text (n : node) : string :=
  match n with
  | NavigableString s => s
  | Tag _ _ _ cs => String.concat EmptyString (map text cs)
  end.

(** The elements strictly below a node, in document order. *)
Fixpoint descendants (n : node) : list node :=
  match n with
  | NavigableString _ => []
  | Tag _ _ _ cs => flat_map (fun c => c :: descendants c) cs
  end.

(** [tag.attrs.get(key, default)] *)
Fixpoint attrs_get (attrs : list (string * string)) (key default : string)
  : string :=
  match attrs with
  | [] => default
  | (k, v) :: rest => if String.eqb k key then v else attrs_get rest key default
  end.

Definition attrs (n : node) : list (string * string) :=
  match n with
  | NavigableString _ => []
  | Tag _ _ a _ => a
  end.

(** A [class_=c] filter matches when [c] is one of the tag's classes or
    the whole attribute; with the empty [c] that is a tag without classes. *)
Definition has_class (c : string) (cls : list string) : bool :=
  existsb (String.eqb c) cls || String.eqb c (String.concat " " cls).

Definition matches (name : string) (class_ : option string) (n : node) : bool :=
  match n with
  | NavigableString _ => false
  | Tag nm cls _ _ =>
      String.eqb nm name &&
      match class_ with
      | None => true
      | Some c => has_class c cls
      end
  end.

Definition find_all (name : string) (class_ : option string) (n : node)
  : list node :=
  filter (matches name class_) (descendants n).

Definition find (name : string) (class_ : option string) (n : node)
  : option node :=
  hd_error (find_all name class_ n).

(** ** Fetching *)

(** The pages behind the URLs; [None] where the request itself fails. *)
Definition web : Type := string -> option node.

Definition get_soup (w : web) (url : string) : result node :=
  match w url with
  | Some soup => Ok soup
  | None => Raise ConnectionError
  end.

(** ** The records passed between the stages *)

Record author_link : Type := {
  author_name : string;
  author_info_url : string
}.

Record author_data : Type := {
  fullname : string;
  born_date : string;
  born_location : string;
  description : string
}.

Record quote_data : Type := {
  tags : list string;
  author : string;
  quote : string
}.

(** ** Scraping

    [get_pages], [get_authors_info], [parse_authors] and [parse_quotes]
    have the same text in [main.py], [main_asincio.py], [main_oop.py] and
    [main_oop_asincio.py] (there as methods of [AuthorScraper] and
    [QuoteScraper]); [main_asincio_motor.py] differs in the two parsers,
    which fetch every page before parsing any (module [Motor] below). *)

(** The body of [while link_to_parse:].  The loop need not end, so it
    takes fuel; [None] means the fuel ran out. *)
Fixpoint get_pages_loop (fuel : nat) (w : web) (base_link : string)
  (links : list string) (link_to_parse : option string)
  : option (result (list string)) :=
  match link_to_parse with
  | None => Some (Ok links)
  | Some url =>
      if truthy url then
        match fuel with
        | O => None
        | S fuel' =>
            match get_soup w url with
            | Raise e => Some (Raise e)
            | Ok soup =>
                match find "li" (Some "next") soup with
                | Some li =>
                    match find "a" None li with
                    | None => Some (Raise AttributeError)
                    | Some a =>
                        let link := attrs_get (attrs a) "href" EmptyString in
                        get_pages_loop fuel' w base_link
                          (links ++ [(base_link ++ link)%string])
                          (Some (base_link ++ link)%string)
                    end
                | None => get_pages_loop fuel' w base_link links None
                end
            end
        end
      else Some (Ok links)
  end.

Definition get_pages (fuel : nat) (w : web) (base_link : string)
  : option (result (list string)) :=
  get_pages_loop fuel w base_link [base_link] (Some base_link).

(** [any(author["author_name"] == author_name for author in author_links)] *)
Definition author_found (author_links : list author_link) (name : string)
  : bool :=
  existsb (fun a => String.eqb (author_name a) name) author_links.

(** The inner loop of [get_authors_info], from index [el] on: [authors] is
    what remains of the page's author-name elements, [authors_description]
    all of its quote elements. *)
Fixpoint authors_loop (base_url : string) (authors_description : list node)
  (el : nat) (authors : list node) (author_links : list author_link)
  : result (list author_link) :=
  match authors with
  | [] => Ok author_links
  | a :: rest =>
      let name := text a in
      if author_found author_links name then
        authors_loop base_url authors_description (S el) rest author_links
      else
        match nth_error authors_description el with
        | None => Raise IndexError
        | Some q =>
            let* lnk := deref (find "a" (Some EmptyString) q) in
            let author_info_url :=
              (base_url ++ attrs_get (attrs lnk) "href" EmptyString)%string in
            authors_loop base_url authors_description (S el) rest
              (author_links ++
                 [{| author_name := name; author_info_url := author_info_url |}])
        end
  end.

Fixpoint get_authors_info_from (w : web) (base_url : string)
  (urls : list string) (author_links : list author_link)
  : result (list author_link) :=
  match urls with
  | [] => Ok author_links
  | url :: rest =>
      let* soup := get_soup w url in
      let authors := find_all "small" (Some "author") soup in
      let authors_description := find_all "div" (Some "quote") soup in
      let* author_links' :=
        authors_loop base_url authors_description 0 authors author_links in
      get_authors_info_from w base_url rest author_links'
  end.

Definition get_authors_info (w : web) (base_url : string) (urls : list string)
  : result (list author_link) :=
  get_authors_info_from w base_url urls [].

(** The four fields of an author page. *)
Definition parse_author (soup : node) : result author_data :=
  let* title := deref (find "h3" (Some "author-title") soup) in
  let* date := deref (find "span" (Some "author-born-date") soup) in
  let* location := deref (find "span" (Some "author-born-location") soup) in
  let* bio := deref (find "div" (Some "author-description") soup) in
  Ok {| fullname := strip (text title);
        born_date := strip (text date);
        born_location := strip (text location);
        description := strip (text bio) |}.

Fixpoint parse_authors_from (w : web) (author_links : list author_link)
  (author_list : list author_data) : result (list author_data) :=
  match author_links with
  | [] => Ok author_list
  | a :: rest =>
      let url := author_info_url a in
      let* soup := get_soup w url in
      let* r := parse_author soup in
      parse_authors_from w rest (author_list ++ [r])
  end.

Definition parse_authors (w : web) (author_links : list author_link)
  : result (list author_data) :=
  parse_authors_from w author_links [].

(** One quote element. *)
Definition parse_quote (el : node) : result quote_data :=
  let* a := deref (find "small" (Some "author") el) in
  let* q := deref (find "span" (Some "text") el) in
  let* t := deref (find "div" (Some "tags") el) in
  let tags_list := map (fun tag => strip (text tag)) (find_all "a" (Some "tag") t) in
  Ok {| tags := tags_list; author := text a; quote := text q |}.

Fixpoint quotes_loop (quotes : list node) (quotes_list : list quote_data)
  : result (list quote_data) :=
  match quotes with
  | [] => Ok quotes_list
  | el :: rest =>
      let* r := parse_quote el in
      quotes_loop rest (quotes_list ++ [r])
  end.

Fixpoint parse_quotes_from (w : web) (links : list string)
  (quotes_list : list quote_data) : result (list quote_data) :=
  match links with
  | [] => Ok quotes_list
  | url :: rest =>
      let* soup := get_soup w url in
      let* quotes_list' :=
        quotes_loop (find_all "div" (Some "quote") soup) quotes_list in
      parse_quotes_from w rest quotes_list'
  end.

Definition parse_quotes (w : web) (links : list string)
  : result (list quote_data) :=
  parse_quotes_from w links [].

(** ** The document store *)

Record author_doc : Type := {
  author_id : nat;
  author_fields : author_data
}.

(** A stored quote refers to its author by the author's identity. *)
Record quote_doc : Type := {
  quote_id : nat;
  quote_tags : list string;
  quote_author : nat;
  quote_text : string
}.

(** Both collections in insertion order, and the next fresh identity. *)
Record store : Type := {
  db_authors : list author_doc;
  db_quotes : list quote_doc;
  db_next_id : nat
}.

(** Code that reads and writes the store and may raise; the store
    survives an exception, as nothing is rolled back. *)
Definition DB (A : Type) : Type := store -> result A * store.

Definition ret {A : Type} (a : A) : DB A := fun st => (Ok a, st).

Definition raise {A : Type} (e : exn) : DB A := fun st => (Raise e, st).

Definition lift {A : Type} (r : result A) : DB A := fun st => (r, st).

Definition bindDB {A B : Type} (m : DB A) (k : A -> DB B) : DB B :=
  fun st =>
    match m st with
    | (Ok a, st') => k a st'
    | (Raise e, st') => (Raise e, st')
    end.

Declare Scope db_scope.
Delimit Scope db_scope with db.
Notation "x <- c ;; k" := (bindDB c (fun x => k))
  (at level 61, c at next level, right associativity) : db_scope.
Open Scope db_scope.

(** [for x in l: body(x)] *)
Fixpoint for_each {A : Type} (body : A -> DB unit) (l : list A) : DB unit :=
  match l with
  | [] => ret tt
  | x :: rest => _ <- body x ;; for_each body rest
  end.

(** What [models.py] declares and the scripts cannot show: whether the
    [fullname] field of [Author] and the [quote] field of [Quote] carry a
    unique index. *)
Record models : Type := {
  unique_fullname : bool;
  unique_quote : bool
}.

Definition has_fullname (name : string) (a : author_doc) : bool :=
  String.eqb (fullname (author_fields a)) name.

Definition has_text (q : string) (d : quote_doc) : bool :=
  String.eqb (quote_text d) q.

Definition insert_author (d : author_data) (st : store) : store :=
  {| db_authors := db_authors st ++
                   [{| author_id := db_next_id st; author_fields := d |}];
     db_quotes := db_quotes st;
     db_next_id := S (db_next_id st) |}.

Definition insert_quote (t : list string) (a : nat) (q : string) (st : store)
  : store :=
  {| db_authors := db_authors st;
     db_quotes := db_quotes st ++
                  [{| quote_id := db_next_id st; quote_tags := t;
                      quote_author := a; quote_text := q |}];
     db_next_id := S (db_next_id st) |}.

(** Modelled from the spec: [models.py], with the document classes
    [Author] and [Quote], is not among the sources.  [save()] of a new
    [Author] built from [d] is the store's insertOne on the author
    collection; under a unique index it raises when the key is taken. *)
Definition Author_save (m : models) (d : author_data) : DB unit :=
  fun st =>
    if unique_fullname m && existsb (has_fullname (fullname d)) (db_authors st)
    then (Raise NotUniqueError, st)
    else (Ok tt, insert_author d st).

(** Modelled from the spec: [models.py] is not among the sources.
    [Author.objects(fullname=name).first()] is the store's findOne: the
    first stored author with that name, if any. *)
Definition Author_objects_first (name : string) : DB (option author_doc) :=
  fun st => (Ok (List.find (has_fullname name) (db_authors st)), st).

(** Modelled from the spec: [models.py] is not among the sources.
    [save()] of a new [Quote] built from [quote_data], in which
    [quote_data["author"]] is already the author document: insertOne on
    the quote collection, the author kept as a reference. *)
Definition Quote_save (m : models) (t : list string) (a : author_doc)
  (q : string) : DB unit :=
  fun st =>
    if unique_quote m && existsb (has_text q) (db_quotes st)
    then (Raise NotUniqueError, st)
    else (Ok tt, insert_quote t (author_id a) q st).

(** Modelled from the spec: [models.py] is not among the sources.
    [Quote.objects(quote=q).first()] *)
Definition Quote_objects_first (q : string) : DB (option quote_doc) :=
  fun st => (Ok (List.find (has_text q) (db_quotes st)), st).

(** ** Persisting: [main.py] *)

Module Main.

Definition upload_author_data (m : models) (authors_data : list author_data)
  : DB unit :=
  for_each (fun author_data => Author_save m author_data) authors_data.

Definition upload_quotes_data (m : models) (quotes_data : list quote_data)
  : DB unit :=
  for_each
    (fun quote_data =>
       let author_name := author quote_data in
       a <- Author_objects_first author_name ;;
       match a with
       | Some a' => Quote_save m (tags quote_data) a' (quote quote_data)
       | None => ret tt
       end)
    quotes_data.

End Main.

(** ** Persisting: [main_asincio.py], the same two functions *)

Module MainAsincio.

Definition upload_author_data (m : models) (authors_data : list author_data)
  : DB unit :=
  for_each (fun author_data => Author_save m author_data) authors_data.

Definition upload_quotes_data (m : models) (quotes_data : list quote_data)
  : DB unit :=
  for_each
    (fun quote_data =>
       let author_name := author quote_data in
       a <- Author_objects_first author_name ;;
       match a with
       | Some a' => Quote_save m (tags quote_data) a' (quote quote_data)
       | None => ret tt
       end)
    quotes_data.

End MainAsincio.

(** ** Persisting: [main_oop.py], methods of [Database] *)

Module MainOop.

Definition upload_author_data (m : models) (authors_data : list author_data)
  : DB unit :=
  for_each (fun author_data => Author_save m author_data) authors_data.

Definition upload_quotes_data (m : models) (quotes_data : list quote_data)
  : DB unit :=
  for_each
    (fun quote_data =>
       let author_name := author quote_data in
       a <- Author_objects_first author_name ;;
       match a with
       | Some a' => Quote_save m (tags quote_data) a' (quote quote_data)
       | None => ret tt
       end)
    quotes_data.

End MainOop.

(** ** Persisting: [main_oop_asincio.py], methods of [Database]

    Both loops look the key up before they save. *)

Module OopAsincio.

Definition upload_author_data (m : models) (authors_data : list author_data)
  : DB unit :=
  for_each
    (fun author_data =>
       found <- Author_objects_first (fullname author_data) ;;
       match found with
       | None => Author_save m author_data
       | Some _ => ret tt
       end)
    authors_data.

Definition upload_quotes_data (m : models) (quotes_data : list quote_data)
  : DB unit :=
  for_each
    (fun quote_data =>
       let author_name := author quote_data in
       a <- Author_objects_first author_name ;;
       match a with
       | Some a' =>
           found <- Quote_objects_first (quote quote_data) ;;
           match found with
           | None => Quote_save m (tags quote_data) a' (quote quote_data)
           | Some _ => ret tt
           end
       | None => ret tt
       end)
    quotes_data.

End OopAsincio.

(** ** [main_asincio_motor.py]

    The driver is used directly: no document classes, hence no [models].
    The two parsers fetch all their pages first. *)

Module Motor.

(** [asyncio.gather] over the fetches: every page, or an
    exception. *)
Fixpoint gather (w : web) (urls : list string) : result (list node) :=
  match urls with
  | [] => Ok []
  | url :: rest =>
      let* soup := get_soup w url in
      let* soups := gather w rest in
      Ok (soup :: soups)
  end.

Fixpoint authors_of_soups (soups : list node) (author_list : list author_data)
  : result (list author_data) :=
  match soups with
  | [] => Ok author_list
  | soup :: rest =>
      let* r := parse_author soup in
      authors_of_soups rest (author_list ++ [r])
  end.

Definition parse_authors (w : web) (author_links : list author_link)
  : result (list author_data) :=
  let* soups := gather w (map author_info_url author_links) in
  authors_of_soups soups [].

Fixpoint quotes_of_soups (soups : list node) (quotes_list : list quote_data)
  : result (list quote_data) :=
  match soups with
  | [] => Ok quotes_list
  | soup :: rest =>
      let* quotes_list' :=
        quotes_loop (find_all "div" (Some "quote") soup) quotes_list in
      quotes_of_soups rest quotes_list'
  end.

Definition parse_quotes (w : web) (links : list string)
  : result (list quote_data) :=
  let* soups := gather w links in
  quotes_of_soups soups [].

(** [collection.insert_many(documents)] refuses an empty list. *)
Definition insert_many (documents : list author_data) : DB unit :=
  fun st =>
    match documents with
    | [] => (Raise TypeError, st)
    | _ => (Ok tt, fold_left (fun s d => insert_author d s) documents st)
    end.

Definition find_one (name : string) : DB (option author_doc) :=
  fun st => (Ok (List.find (has_fullname name) (db_authors st)), st).

Definition insert_one (t : list string) (a : nat) (q : string) : DB unit :=
  fun st => (Ok tt, insert_quote t a q st).

Definition upload_author_data (authors_data : list author_data) : DB unit :=
  insert_many authors_data.

Definition upload_quotes_data (quotes_data : list quote_data) : DB unit :=
  for_each
    (fun quote_data =>
       let author_name := author quote_data in
       a <- find_one author_name ;;
       match a with
       | Some a' =>
           insert_one (tags quote_data) (author_id a') (quote quote_data)
       | None => ret tt
       end)
    quotes_data.

End Motor.

(** ** The whole run

    Writing the two lists to JSON files and reading them back returns
    the same lists, so the staging files are left out. *)

Definition scrape (fuel : nat) (w : web) (BASE_URL : string)
  : option (result (list author_data * list quote_data)) :=
  match get_pages fuel w BASE_URL with
  | None => None
  | Some r =>
      Some (let* pages := r in
            let* author_links := get_authors_info w BASE_URL pages in
            let* authors_info := parse_authors w author_links in
            let* quotes_info := parse_quotes w pages in
            Ok (authors_info, quotes_info))
  end.

Definition scrape_motor (fuel : nat) (w : web) (BASE_URL : string)
  : option (result (list author_data * list quote_data)) :=
  match get_pages fuel w BASE_URL with
  | None => None
  | Some r =>
      Some (let* pages := r in
            let* author_links := get_authors_info w BASE_URL pages in
            let* authors_info := Motor.parse_authors w author_links in
            let* quotes_info := Motor.parse_quotes w pages in
            Ok (authors_info, quotes_info))
  end.

(** A run given its two persistence functions. *)
Definition run (scraped : option (result (list author_data * list quote_data)))
  (upload_author_data : list author_data -> DB unit)
  (upload_quotes_data : list quote_data -> DB unit)
  : option (DB unit) :=
  match scraped with
  | None => None
  | Some r =>
      Some (data <- lift r ;;
            _ <- upload_author_data (fst data) ;;
            upload_quotes_data (snd data))
  end.

Definition main (fuel : nat) (w : web) (BASE_URL : string) (m : models)
  : option (DB unit) :=
  run (scrape fuel w BASE_URL)
      (Main.upload_author_data m) (Main.upload_quotes_data m).

Definition main_asincio (fuel : nat) (w : web) (BASE_URL : string) (m : models)
  : option (DB unit) :=
  run (scrape fuel w BASE_URL)
      (MainAsincio.upload_author_data m) (MainAsincio.upload_quotes_data m).

Definition main_oop (fuel : nat) (w : web) (BASE_URL : string) (m : models)
  : option (DB unit) :=
  run (scrape fuel w BASE_URL)
      (MainOop.upload_author_data m) (MainOop.upload_quotes_data m).

Definition main_oop_asincio (fuel : nat) (w : web) (BASE_URL : string)
  (m : models) : option (DB unit) :=
  run (scrape fuel w BASE_URL)
      (OopAsincio.upload_author_data m) (OopAsincio.upload_quotes_data m).

Definition main_asincio_motor (fuel : nat) (w : web) (BASE_URL : string)
  : option (DB unit) :=
  run (scrape_motor fuel w BASE_URL)
      Motor.upload_author_data Motor.upload_quotes_data.

(** ** Specification-level notions *)

(** What [parse_authors] has to produce for one reference: the four
    trimmed texts of the page behind its URL. *)
Definition resolved (w : web) (a : author_link) (r : author_data) : Prop :=
  exists soup title date location bio,
    w (author_info_url a) = Some soup /\
    find "h3" (Some "author-title") soup = Some title /\
    find "span" (Some "author-born-date") soup = Some date /\
    find "span" (Some "author-born-location") soup = Some location /\
    find "div" (Some "author-description") soup = Some bio /\
    r = {| fullname := strip (text title);
           born_date := strip (text date);
           born_location := strip (text location);
           description := strip (text bio) |}.

(** [t] is [s] without the white space at its two ends. *)
Definition trimmed_of (s t : string) : Prop :=
  exists l r,
    s = (l ++ t ++ r)%string /\
    all_space l = true /\ all_space r = true /\
    not_space (first_char t) = true /\ not_space (last_char t) = true.

(** ** Markup used in the examples, shaped like the listing pages *)

Definition tag_link (t : string) : node :=
  Tag "a" ["tag"] [("href", ("/tag/" ++ t)%string)] [NavigableString t].

Definition quote_element (q name href : string) (ts : list string) : node :=
  Tag "div" ["quote"] []
    [ Tag "span" ["text"] [] [NavigableString q];
      Tag "span" [] []
        [ NavigableString "by ";
          Tag "small" ["author"] [] [NavigableString name];
          Tag "a" [] [("href", href)] [NavigableString "(about)"] ];
      Tag "div" ["tags"] [] (NavigableString "Tags: " :: map tag_link ts) ].

Definition next_link (href : string) : node :=
  Tag "li" ["next"] [] [Tag "a" [] [("href", href)] [NavigableString "Next"]].

Definition listing_page (quotes : list node) (next : option string) : node :=
  Tag "[document]" [] []
    [Tag "body" [] []
       (quotes ++ match next with
                  | Some href => [next_link href]
                  | None => []
                  end)].

Definition author_page (name date location bio : string) : node :=
  Tag "[document]" [] []
    [Tag "body" [] []
       [ Tag "h3" ["author-title"] [] [NavigableString name];
         Tag "span" ["author-born-date"] [] [NavigableString date];
         Tag "span" ["author-born-location"] [] [NavigableString location];
         Tag "div" ["author-description"] [] [NavigableString bio] ]].

(** ** Author references before and after deduplication *)

(** The references of one page as [get_authors_info] pairs them: the
    author-name element at index [el] with the link of the quote element
    at index [el]. *)
Fixpoint page_refs (base_url : string) (authors_description : list node)
  (el : nat) (authors : list node) : result (list author_link) :=
  match authors with
  | [] => Ok []
  | a :: rest =>
      match nth_error authors_description el with
      | None => Raise IndexError
      | Some q =>
          let* lnk := deref (find "a" (Some EmptyString) q) in
          let* refs := page_refs base_url authors_description (S el) rest in
          Ok ({| author_name := text a;
                 author_info_url :=
                   (base_url ++ attrs_get (attrs lnk) "href" EmptyString)%string |}
              :: refs)
      end
  end.

(** The references of all pages, in crawl order. *)
Fixpoint author_refs (w : web) (base_url : string) (urls : list string)
  : result (list author_link) :=
  match urls with
  | [] => Ok []
  | url :: rest =>
      let* soup := get_soup w url in
      let* refs :=
        page_refs base_url (find_all "div" (Some "quote") soup) 0
                  (find_all "small" (Some "author") soup) in
      let* refs' := author_refs w base_url rest in
      Ok (refs ++ refs')
  end.

Definition other_name (r r' : author_link) : bool :=
  negb (String.eqb (author_name r') (author_name r)).

(** Deduplication as the specification words it: keyed by name, the first
    occurrence wins and every later one is discarded. *)
Fixpoint dedupe (refs : list author_link) : list author_link :=
  match refs with
  | [] => []
  | r :: rest => r :: filter (other_name r) (dedupe rest)
  end.

(** Deduplication with the references already collected. *)
Fixpoint dedupe_into (seen refs : list author_link) : list author_link :=
  match refs with
  | [] => seen
  | r :: rest =>
      if author_found seen (author_name r) then dedupe_into seen rest
      else dedupe_into (seen ++ [r]) rest
  end.

Definition unseen (seen : list author_link) (r : author_link) : bool :=
  negb (author_found seen (author_name r)).

(** [l] is [l'] with some elements left out. *)
Inductive subseq {A : Type} : list A -> list A -> Prop :=
| subseq_nil : subseq [] []
| subseq_skip x l l' : subseq l l' -> subseq l (x :: l')
| subseq_keep x l l' : subseq l l' -> subseq (x :: l) (x :: l').

(** ** Pages on which names and quote elements line up *)

Definition is_author (n : node) : bool := matches "small" (Some "author") n.

Definition is_quote (n : node) : bool := matches "div" (Some "quote") n.

(** The author-name elements below [n] that lie in no quote element. *)
Fixpoint stray_authors (n : node) : list node :=
  match n with
  | NavigableString _ => []
  | Tag _ _ _ cs =>
      flat_map
        (fun c =>
           if is_quote c then []
           else (if is_author c then [c] else []) ++ stray_authors c)
        cs
  end.

(** No author name outside the quote elements, no quote element inside
    another, and one author name in each. *)
Definition one_author_per_quote (soup : node) : Prop :=
  stray_authors soup = [] /\
  Forall (fun q => find_all "div" (Some "quote") q = [])
         (find_all "div" (Some "quote") soup) /\
  Forall (fun q => List.length (find_all "small" (Some "author") q) = 1)
         (find_all "div" (Some "quote") soup).

(** ** The chain of next links *)

(** [next_chain w base url hrefs]: starting at [url], the pages carry the
    next links [hrefs] one after the other, each followed from [base], and
    the last page carries none. *)
Inductive next_chain (w : web) (base : string) : string -> list string -> Prop :=
| chain_end url soup :
    w url = Some soup ->
    find "li" (Some "next") soup = None ->
    next_chain w base url []
| chain_step url soup li a hrefs :
    w url = Some soup ->
    find "li" (Some "next") soup = Some li ->
    find "a" None li = Some a ->
    next_chain w base (base ++ attrs_get (attrs a) "href" EmptyString)%string
               hrefs ->
    next_chain w base url (attrs_get (attrs a) "href" EmptyString :: hrefs).

(** ** Example sites *)

(** Three listing pages chained by two next links. *)
Definition three_pages : web :=
  fun url =>
    if String.eqb url "http://quotes" then
      Some (listing_page [] (Some "/page/2/"))
    else if String.eqb url "http://quotes/page/2/" then
      Some (listing_page [] (Some "/page/3/"))
    else if String.eqb url "http://quotes/page/3/" then
      Some (listing_page [] None)
    else if String.eqb url "http://quotes/page/2//page/3/" then
      Some (listing_page [] None)
    else None.

Definition einstein_world : node :=
  quote_element "The world as we have created it is a process of our thinking."
                "Albert Einstein" "/author/Albert-Einstein"
                ["change"; "deep-thoughts"; "thinking"].

Definition einstein_miracle : node :=
  quote_element "There are only two ways to live your life."
                "Albert Einstein" "/author/Albert-Einstein"
                ["inspirational"; "life"; "live"].

Definition rowling_choices : node :=
  quote_element "It is our choices, Harry, that show what we truly are."
                "J.K. Rowling" "/author/J-K-Rowling"
                ["abilities"; "choices"].

(** Two listing pages, Einstein quoted on both, and the two author
    pages; the texts of the author pages carry white space to trim. *)
Definition site : web :=
  fun url =>
    if String.eqb url "http://quotes" then
      Some (listing_page [einstein_world; rowling_choices] (Some "/page/2/"))
    else if String.eqb url "http://quotes/page/2/" then
      Some (listing_page [einstein_miracle] None)
    else if String.eqb url "http://quotes/author/Albert-Einstein" then
      Some (author_page "Albert Einstein " "March 14, 1879"
                        "in Ulm, Germany" "  In 1879, Albert Einstein was born. ")
    else if String.eqb url "http://quotes/author/J-K-Rowling" then
      Some (author_page "J.K. Rowling" "July 31, 1965"
                        "in Yate, United Kingdom" " See also: Robert Galbraith ")
    else None.

(** A page that names Einstein once more below its only quote element. *)
Definition repeated_name_page : node :=
  Tag "[document]" [] []
    [Tag "body" [] []
       [ einstein_world;
         Tag "small" ["author"] [] [NavigableString "Albert Einstein"] ]].

(** A page that names Rowling above its only quote element, which is
    Einstein's. *)
Definition byline_page : node :=
  Tag "[document]" [] []
    [Tag "body" [] []
       [ Tag "small" ["author"] [] [NavigableString "J.K. Rowling"];
         einstein_world ]].

Definition only_page (soup : node) : web := fun _ => Some soup.

(** ** Persistence as the specification words it *)

Definition stored_fullname (name : string) (st : store) : bool :=
  existsb (has_fullname name) (db_authors st).

Definition stored_text (q : string) (st : store) : bool :=
  existsb (has_text q) (db_quotes st).

(** persistAuthors: insert a record only if no stored record has its
    fullname. *)
Definition persist_author (d : author_data) (st : store) : store :=
  if stored_fullname (fullname d) st then st else insert_author d st.

Definition persistAuthors (records : list author_data) (st : store) : store :=
  fold_left (fun s d => persist_author d s) records st.

(** persistQuotes: resolve the author name against the store, then insert
    only if no stored record has the quote text. *)
Definition persist_quote (q : quote_data) (st : store) : store :=
  match List.find (has_fullname (author q)) (db_authors st) with
  | None => st
  | Some a =>
      if stored_text (quote q) st then st
      else insert_quote (tags q) (author_id a) (quote q) st
  end.

Definition persistQuotes (records : list quote_data) (st : store) : store :=
  fold_left (fun s q => persist_quote q s) records st.

(** Saving without any lookup. *)
Definition insert_authors (records : list author_data) (st : store) : store :=
  fold_left (fun s d => insert_author d s) records st.

Definition insert_resolved (q : quote_data) (st : store) : store :=
  match List.find (has_fullname (author q)) (db_authors st) with
  | None => st
  | Some a => insert_quote (tags q) (author_id a) (quote q) st
  end.

Definition insert_quotes (records : list quote_data) (st : store) : store :=
  fold_left (fun s q => insert_resolved q s) records st.



(** A run that exists, ends normally and leaves [st']. *)
Definition runs_to (r : option (DB unit)) (st st' : store) : Prop :=
  exists run, r = Some run /\ run st = (Ok tt, st').

Definition empty_store : store :=
  {| db_authors := []; db_quotes := []; db_next_id := 0 |}.

Definition no_index : models :=
  {| unique_fullname := false; unique_quote := false |}.

Definition unique_index : models :=
  {| unique_fullname := true; unique_quote := true |}.

Definition einstein : author_data :=
  {| fullname := "Albert Einstein"; born_date := "March 14, 1879";
     born_location := "in Ulm, Germany";
     description := "In 1879, Albert Einstein was born." |}.

Definition rowling : author_data :=
  {| fullname := "J.K. Rowling"; born_date := "July 31, 1965";
     born_location := "in Yate, United Kingdom";
     description := "See also: Robert Galbraith" |}.

Definition world_quote : quote_data :=
  {| tags := ["change"; "deep-thoughts"; "thinking"];
     author := "Albert Einstein";
     quote := "The world as we have created it is a process of our thinking." |}.

Definition orphan_quote : quote_data :=
  {| tags := ["humor"];
     author := "Nobody Stored";
     quote := "A quote whose author was never saved." |}.

(** A store that already holds Einstein and one quote of his. *)
Definition einstein_store : store :=
  {| db_authors := [{| author_id := 0; author_fields := einstein |}];
     db_quotes := [{| quote_id := 1;
                      quote_tags := ["change"; "deep-thoughts"; "thinking"];
                      quote_author := 0;
                      quote_text := quote world_quote |}];
     db_next_id := 2 |}.

Definition stored_name (a : author_doc) : string := fullname (author_fields a).

(** The stored quote that [q] becomes once its author is resolved to [a]. *)
Definition quote_of (q : quote_data) (a : author_doc) (d : quote_doc) : Prop :=
  quote_tags d = tags q /\ quote_author d = author_id a /\
  quote_text d = quote q.

(** ** The walk, one page at a time *)

(** The URL [get_pages] goes to after [url]: defined when the page is
    there and carries a next link with an anchor. *)
Definition next_url (w : web) (base url : string) : option string :=
  match w url with
  | None => None
  | Some soup =>
      match find "li" (Some "next") soup with
      | None => None
      | Some li =>
          match find "a" None li with
          | None => None
          | Some a =>
              Some (base ++ attrs_get (attrs a) "href" EmptyString)%string
          end
      end
  end.

(** The URL reached from [url] after [k] next links. *)
Fixpoint walk (w : web) (base : string) (k : nat) (url : string)
  : option string :=
  match k with
  | O => Some url
  | S k' =>
      match next_url w base url with
      | None => None
      | Some url' => walk w base k' url'
      end
  end.

(** A listing page whose next link has an anchor without [href]. *)
Definition no_href_page : node :=
  Tag "[document]" [] []
    [Tag "body" [] []
       [Tag "li" ["next"] [] [Tag "a" [] [] [NavigableString "Next"]]]].

(** A listing page whose next item has no anchor. *)
Definition no_anchor_page : node :=
  Tag "[document]" [] []
    [Tag "body" [] [] [Tag "li" ["next"] [] [NavigableString "Next"]]].

(** Two pages whose next links point at each other. *)
Definition two_page_cycle : web :=
  fun url =>
    if String.eqb url "http://quotes" then
      Some (listing_page [] (Some "/page/2/"))
    else if String.eqb url "http://quotes/page/2/" then
      Some (listing_page [] (Some EmptyString))
    else None.

(** A first page that leads to a page that cannot be fetched. *)
Definition broken_site : web :=
  fun url =>
    if String.eqb url "http://quotes" then
      Some (listing_page [einstein_world] (Some "/page/2/"))
    else None.

(** A first page that leads to a page whose next item has no anchor. *)
Definition no_anchor_site : web :=
  fun url =>
    if String.eqb url "http://quotes" then
      Some (listing_page [] (Some "/page/2/"))
    else if String.eqb url "http://quotes/page/2/" then Some no_anchor_page
    else None.

(** ** Pages and their elements *)

(** Every URL of [links] is fetched, giving [soups] in the same order. *)
Definition fetched (w : web) (links : list string) (soups : list node) : Prop :=
  Forall2 (fun url soup => w url = Some soup) links soups.

(** The quote elements of the pages, page after page. *)
Definition quote_elements (soups : list node) : list node :=
  flat_map (find_all "div" (Some "quote")) soups.

(** [name] is the text of an author-name element of a fetched page. *)
Definition named_on (w : web) (urls : list string) (name : string) : Prop :=
  exists url soup a,
    In url urls /\ w url = Some soup /\
    In a (find_all "small" (Some "author") soup) /\ text a = name.

(** A quote element without its tags element. *)
Definition untagged_quote : node :=
  Tag "div" ["quote"] []
    [ Tag "span" ["text"] [] [NavigableString "No tags here."];
      Tag "span" [] []
        [ Tag "small" ["author"] [] [NavigableString "Albert Einstein"];
          Tag "a" [] [("href", "/author/Albert-Einstein")]
              [NavigableString "(about)"] ] ].

(** A first page with a malformed quote element, a second page that
    cannot be fetched. *)
Definition malformed_then_broken : web :=
  fun url =>
    if String.eqb url "http://quotes" then
      Some (listing_page [untagged_quote] (Some "/page/2/"))
    else None.

(** ** Stores before and after *)

(** [st'] holds every document of [st], unchanged and in place, and
    possibly more behind them. *)
Definition only_appends (st st' : store) : Prop :=
  (exists new, db_authors st' = db_authors st ++ new) /\
  (exists new, db_quotes st' = db_quotes st ++ new).

(** As [only_appends], the added authors being records of [data]. *)
Definition appends_authors_of (data : list author_data) (st st' : store)
  : Prop :=
  (exists new,
      db_authors st' = db_authors st ++ new /\
      Forall (fun a => In (author_fields a) data) new) /\
  db_quotes st' = db_quotes st.

Definition not_stored (st : store) (d : author_data) : bool :=
  negb (stored_fullname (fullname d) st).

Definition resolvable (st : store) (q : quote_data) : bool :=
  stored_fullname (author q) st.

Definition other_fullname (d d' : author_data) : bool :=
  negb (String.eqb (fullname d') (fullname d)).

(** The first record of each fullname. *)
Fixpoint first_by_fullname (records : list author_data) : list author_data :=
  match records with
  | [] => []
  | d :: rest => d :: filter (other_fullname d) (first_by_fullname rest)
  end.

(** A listing page whose author name is padded with a space, and the
    author page it leads to. *)
Definition padded_site : web :=
  fun url =>
    if String.eqb url "http://quotes" then
      Some (listing_page
              [quote_element "Imagination is more important than knowledge."
                             "Albert Einstein " "/author/Albert-Einstein"
                             ["imagination"]]
              None)
    else if String.eqb url "http://quotes/author/Albert-Einstein" then
      Some (author_page "Albert Einstein " "March 14, 1879"
                        "in Ulm, Germany" "In 1879, Albert Einstein was born.")
    else None.

Definition einstein_revised : author_data :=
  {| fullname := "Albert Einstein"; born_date := "14 March 1879";
     born_location := "in Ulm"; description := "A later page of the same name." |}.

(** Every stored quote refers to a stored author. *)
Definition well_linked (st : store) : Prop :=
  Forall (fun d => exists a, In a (db_authors st) /\ author_id a = quote_author d)
         (db_quotes st).

(** An author page without its born-location element. *)
Definition incomplete_author_page : node :=
  Tag "[document]" [] []
    [Tag "body" [] []
       [ Tag "h3" ["author-title"] [] [NavigableString "J.K. Rowling"];
         Tag "span" ["author-born-date"] [] [NavigableString "July 31, 1965"];
         Tag "div" ["author-description"] [] [NavigableString "See also."] ]].

(** Einstein's author page is complete, Rowling's is not. *)
Definition incomplete_site : web :=
  fun url =>
    if String.eqb url "http://quotes/author/Albert-Einstein" then
      Some (author_page "Albert Einstein" "March 14, 1879"
                        "in Ulm, Germany" "In 1879, Albert Einstein was born.")
    else if String.eqb url "http://quotes/author/J-K-Rowling" then
      Some incomplete_author_page
    else None.

(** * Properties *)

(** ** [strip] *)

Lemma lstrip_split (s : string) :
  exists l, s = (l ++ lstrip s)%string /\ all_space l = true /\
            not_space (first_char (lstrip s)) = true.
Proof.
  induction s as [|c s IH]; simpl.
  - exists EmptyString. auto.
  - destruct (isspace c) eqn:Hc.
    + destruct IH as (l & Hs & Hl & Hf).
      exists (String c l). simpl. rewrite Hc, Hl. rewrite <- Hs. auto.
    + exists EmptyString. simpl. rewrite Hc. auto.
Qed.

Lemma rstrip_split (s : string) :
  exists r, s = (rstrip s ++ r)%string /\ all_space r = true /\
            not_space (last_char (rstrip s)) = true.
Proof.
  induction s as [|c s IH]; simpl.
  - exists EmptyString. auto.
  - destruct IH as (r & Hs & Hr & Hl).
    destruct (rstrip s) as [|c' s'] eqn:Hrs.
    + destruct (isspace c) eqn:Hc.
      * exists (String c r). simpl in *. subst s. rewrite Hc, Hr. auto.
      * exists r. simpl in *. subst s. rewrite Hc. auto.
    + exists r. simpl in *. rewrite <- Hs. auto.
Qed.

Lemma rstrip_first (s : string) :
  not_space (first_char s) = true -> not_space (first_char (rstrip s)) = true.
Proof.
  destruct s as [|c s]; simpl; auto.
  intros Hc. destruct (rstrip s); [destruct (isspace c) eqn:E|];
    simpl in *; rewrite ?E; auto.
Qed.

Lemma append_assoc (a b c : string) :
  ((a ++ b) ++ c = a ++ (b ++ c))%string.
Proof. induction a as [|x a IH]; simpl; [reflexivity | now rewrite IH]. Qed.

Lemma strip_trimmed (s : string) : trimmed_of s (strip s).
Proof.
  unfold trimmed_of, strip.
  destruct (lstrip_split s) as (l & Hs & Hl & Hf).
  destruct (rstrip_split (lstrip s)) as (r & Ht & Hr & Hlast).
  exists l, r. repeat split; auto.
  - rewrite <- Ht. exact Hs.
  - now apply rstrip_first.
Qed.

(** ** [parse_authors] *)

Lemma deref_ok {A : Type} (o : option A) (a : A) :
  deref o = Ok a <-> o = Some a.
Proof. destruct o; simpl; split; congruence. Qed.

Lemma bind_ok {A B : Type} (r : result A) (k : A -> result B) (b : B) :
  bind r k = Ok b <-> exists a, r = Ok a /\ k a = Ok b.
Proof.
  destruct r as [a|e]; simpl; split.
  - eauto.
  - now intros (a' & [= <-] & H).
  - discriminate.
  - now intros (a' & [=] & _).
Qed.

Lemma get_soup_ok (w : web) (url : string) (soup : node) :
  get_soup w url = Ok soup <-> w url = Some soup.
Proof. unfold get_soup. destruct (w url); split; congruence. Qed.

Lemma parse_author_ok (soup : node) (r : author_data) :
  parse_author soup = Ok r <->
  exists title date location bio,
    find "h3" (Some "author-title") soup = Some title /\
    find "span" (Some "author-born-date") soup = Some date /\
    find "span" (Some "author-born-location") soup = Some location /\
    find "div" (Some "author-description") soup = Some bio /\
    r = {| fullname := strip (text title);
           born_date := strip (text date);
           born_location := strip (text location);
           description := strip (text bio) |}.
Proof.
  unfold parse_author. split.
  - intros H.
    apply bind_ok in H as (t & Ht & H). apply bind_ok in H as (d & Hd & H).
    apply bind_ok in H as (l & Hl & H). apply bind_ok in H as (b & Hb & H).
    apply deref_ok in Ht, Hd, Hl, Hb. injection H as <-.
    exists t, d, l, b. auto.
  - intros (t & d & l & b & Ht & Hd & Hl & Hb & ->).
    now rewrite Ht, Hd, Hl, Hb.
Qed.

Lemma resolved_iff (w : web) (a : author_link) (r : author_data) :
  resolved w a r <->
  exists soup, w (author_info_url a) = Some soup /\ parse_author soup = Ok r.
Proof.
  unfold resolved. split.
  - intros (soup & t & d & l & b & Hw & H). exists soup. split; [exact Hw|].
    apply parse_author_ok. exists t, d, l, b. exact H.
  - intros (soup & Hw & H). apply parse_author_ok in H as (t & d & l & b & H).
    exists soup, t, d, l, b. auto.
Qed.

Lemma parse_authors_from_ok (w : web) (author_links : list author_link) :
  forall acc out,
    parse_authors_from w author_links acc = Ok out <->
    exists recs, out = acc ++ recs /\ Forall2 (resolved w) author_links recs.
Proof.
  induction author_links as [|a rest IH]; intros acc out; simpl.
  - split.
    + intros [= <-]. exists []. rewrite app_nil_r. auto.
    + intros (recs & -> & H). inversion H. now rewrite app_nil_r.
  - split.
    + intros H. apply bind_ok in H as (soup & Hs & H).
      apply bind_ok in H as (r & Hr & H). apply IH in H as (recs & -> & HF).
      exists (r :: recs). rewrite <- app_assoc. split; [reflexivity|].
      constructor; [|exact HF]. apply resolved_iff. exists soup.
      split; [now apply get_soup_ok | exact Hr].
    + intros (recs & -> & HF). inversion HF as [|? r ? recs' Hr HF']; subst.
      apply resolved_iff in Hr as (soup & Hw & Hr).
      apply get_soup_ok in Hw. rewrite Hw. simpl. rewrite Hr. simpl.
      apply IH. exists recs'. rewrite <- app_assoc. auto.
Qed.

Lemma gather_ok (w : web) (urls : list string) :
  forall soups,
    Motor.gather w urls = Ok soups <->
    Forall2 (fun url soup => w url = Some soup) urls soups.
Proof.
  induction urls as [|u rest IH]; intros soups; simpl.
  - split; [intros [= <-]; constructor | intros H; now inversion H].
  - split.
    + intros H. apply bind_ok in H as (s & Hs & H).
      apply bind_ok in H as (ss & Hss & [= <-]).
      constructor; [now apply get_soup_ok | now apply IH].
    + intros H. inversion H as [|? s ? ss Hs Hss]; subst.
      apply get_soup_ok in Hs. rewrite Hs. simpl.
      apply IH in Hss. now rewrite Hss.
Qed.

Lemma authors_of_soups_ok (soups : list node) :
  forall acc out,
    Motor.authors_of_soups soups acc = Ok out <->
    exists recs, out = acc ++ recs /\
                 Forall2 (fun soup r => parse_author soup = Ok r) soups recs.
Proof.
  induction soups as [|s rest IH]; intros acc out; simpl.
  - split.
    + intros [= <-]. exists []. rewrite app_nil_r. auto.
    + intros (recs & -> & H). inversion H. now rewrite app_nil_r.
  - split.
    + intros H. apply bind_ok in H as (r & Hr & H).
      apply IH in H as (recs & -> & HF).
      exists (r :: recs). rewrite <- app_assoc. auto.
    + intros (recs & -> & HF). inversion HF as [|? r ? recs' Hr HF']; subst.
      rewrite Hr. simpl. apply IH. exists recs'. rewrite <- app_assoc. auto.
Qed.

Lemma motor_parse_authors_ok (w : web) (author_links : list author_link)
  (recs : list author_data) :
  Motor.parse_authors w author_links = Ok recs <->
  Forall2 (resolved w) author_links recs.
Proof.
  unfold Motor.parse_authors. split.
  - intros H. apply bind_ok in H as (soups & Hg & H).
    apply gather_ok in Hg. apply authors_of_soups_ok in H as (recs' & -> & HF).
    simpl. clear - Hg HF.
    revert soups recs' Hg HF.
    induction author_links as [|a rest IH]; intros soups recs Hg HF.
    + inversion Hg; subst. inversion HF. constructor.
    + inversion Hg as [|? s ? ss Hs Hss]; subst.
      inversion HF as [|? r ? rs Hr Hrs]; subst.
      constructor; [|now apply (IH ss)].
      apply resolved_iff. now exists s.
  - intros HF.
    assert (exists soups,
               Forall2 (fun url soup => w url = Some soup)
                       (map author_info_url author_links) soups /\
               Forall2 (fun soup r => parse_author soup = Ok r) soups recs)
      as (soups & Hg & Hp).
    { induction HF as [|a r rest recs' Hr _ IH].
      - exists []. split; constructor.
      - destruct IH as (ss & Hg & Hp).
        apply resolved_iff in Hr as (s & Hw & Hr).
        exists (s :: ss). split; constructor; auto. }
    apply gather_ok in Hg. rewrite Hg. simpl.
    apply authors_of_soups_ok. exists recs. auto.
Qed.

Lemma parse_authors_ok (w : web) (author_links : list author_link)
  (recs : list author_data) :
  parse_authors w author_links = Ok recs <->
  Forall2 (resolved w) author_links recs.
Proof.
  unfold parse_authors. rewrite parse_authors_from_ok. split.
  - now intros (recs' & -> & H).
  - intros H. now exists recs.
Qed.

Lemma Forall2_same_length {A B : Type} (R : A -> B -> Prop) (l : list A)
  (l' : list B) :
  Forall2 R l l' -> List.length l = List.length l'.
Proof. induction 1; simpl; congruence. Qed.

Lemma Forall2_In_l {A B : Type} (R : A -> B -> Prop) (l : list A)
  (l' : list B) (a : A) :
  Forall2 R l l' -> In a l -> exists b, In b l' /\ R a b.
Proof.
  induction 1 as [|x y l l' Hxy _ IH]; simpl; [contradiction|].
  intros [<-|Hin]; [eauto|]. destruct (IH Hin) as (b & Hb & Hab). eauto.
Qed.

(** C8.  [parse_authors], in the sequential scripts and in the one that
    gathers its fetches, returns a list exactly when every reference
    resolves: the list then holds one record per reference, in order, made
    of the trimmed texts of the four elements of the page; otherwise it
    raises and returns nothing.  In particular it raises as soon as one
    fetched page lacks one of the four elements. *)
Theorem parse_authors_all_or_nothing (w : web)
  (author_links : list author_link) :
  (forall recs,
      parse_authors w author_links = Ok recs <->
      Forall2 (resolved w) author_links recs) /\
  (forall recs,
      Motor.parse_authors w author_links = Ok recs <->
      Forall2 (resolved w) author_links recs) /\
  (forall recs,
      Forall2 (resolved w) author_links recs ->
      List.length recs = List.length author_links) /\
  (forall a soup e,
      In a author_links -> w (author_info_url a) = Some soup ->
      parse_author soup = Raise e ->
      (exists e', parse_authors w author_links = Raise e') /\
      (exists e', Motor.parse_authors w author_links = Raise e')) /\
  (forall s, trimmed_of s (strip s)).
Proof.
  split; [intros recs; apply parse_authors_ok|].
  split; [intros recs; apply motor_parse_authors_ok|].
  split; [intros recs H; symmetry; eapply Forall2_same_length; eauto|].
  split; [|apply strip_trimmed].
  intros a soup e Hin Hw He.
  assert (Hno : forall recs, ~ Forall2 (resolved w) author_links recs).
  { intros recs HF. destruct (@Forall2_In_l _ _ _ _ _ a HF Hin) as (r & _ & Hr).
    apply resolved_iff in Hr as (soup' & Hw' & Hr). congruence. }
  split.
  - destruct (parse_authors w author_links) as [recs|e'] eqn:E; [|eauto].
    apply parse_authors_ok in E. now apply Hno in E.
  - destruct (Motor.parse_authors w author_links) as [recs|e'] eqn:E; [|eauto].
    apply motor_parse_authors_ok in E. now apply Hno in E.
Qed.

Lemma parse_authors_all_or_nothing_witness :
  parse_authors site
    [ {| author_name := "Albert Einstein";
         author_info_url := "http://quotes/author/Albert-Einstein" |};
      {| author_name := "J.K. Rowling";
         author_info_url := "http://quotes/author/J-K-Rowling" |} ]
  = Ok [einstein; rowling] /\
  Forall2 (resolved site)
    [ {| author_name := "Albert Einstein";
         author_info_url := "http://quotes/author/Albert-Einstein" |};
      {| author_name := "J.K. Rowling";
         author_info_url := "http://quotes/author/J-K-Rowling" |} ]
    [einstein; rowling].
Proof.
  split; [reflexivity|].
  apply (proj1 (parse_authors_all_or_nothing site _)). reflexivity.
Defined.

(** ** [parse_quotes]: the tags of a quote *)

Lemma parse_quote_ok (el : node) (r : quote_data) :
  parse_quote el = Ok r <->
  exists a q t,
    find "small" (Some "author") el = Some a /\
    find "span" (Some "text") el = Some q /\
    find "div" (Some "tags") el = Some t /\
    r = {| tags := map (fun tag => strip (text tag))
                       (find_all "a" (Some "tag") t);
           author := text a;
           quote := text q |}.
Proof.
  unfold parse_quote. split.
  - intros H.
    apply bind_ok in H as (a & Ha & H). apply bind_ok in H as (q & Hq & H).
    apply bind_ok in H as (t & Ht & H).
    apply deref_ok in Ha, Hq, Ht. injection H as <-.
    exists a, q, t. auto.
  - intros (a & q & t & Ha & Hq & Ht & ->). now rewrite Ha, Hq, Ht.
Qed.

Lemma tag_links_found (ts : list string) :
  filter (matches "a" (Some "tag"))
         (flat_map (fun c => c :: descendants c) (map tag_link ts))
  = map tag_link ts.
Proof.
  induction ts as [|t ts IH]; simpl; [reflexivity|].
  now rewrite IH.
Qed.

Lemma tag_links_text (ts : list string) :
  map (fun tag => strip (text tag)) (map tag_link ts) = map strip ts.
Proof.
  induction ts as [|t ts IH]; simpl; [reflexivity|]. now rewrite IH.
Qed.

Lemma parse_quote_element (q name href : string) (ts : list string) :
  parse_quote (quote_element q name href ts)
  = Ok {| tags := map strip ts; author := name; quote := q |}.
Proof.
  apply parse_quote_ok.
  eexists _, _, _. split; [reflexivity|]. split; [reflexivity|].
  split; [reflexivity|].
  unfold find_all. simpl descendants. simpl filter.
  now rewrite tag_links_found, tag_links_text.
Qed.

(** *** Trimming determines its result *)

Lemma lstrip_all_space (s : string) : all_space s = true -> lstrip s = EmptyString.
Proof.
  induction s as [|c s IH]; simpl; [reflexivity|].
  intros H. apply andb_true_iff in H as [Hc Hs]. rewrite Hc. now apply IH.
Qed.

Lemma rstrip_all_space (s : string) : all_space s = true -> rstrip s = EmptyString.
Proof.
  induction s as [|c s IH]; simpl; [reflexivity|].
  intros H. apply andb_true_iff in H as [Hc Hs]. rewrite IH by exact Hs.
  now rewrite Hc.
Qed.

Lemma lstrip_after_space (l s : string) :
  all_space l = true -> lstrip (l ++ s) = lstrip s.
Proof.
  induction l as [|c l IH]; simpl; [reflexivity|].
  intros H. apply andb_true_iff in H as [Hc Hl]. rewrite Hc. now apply IH.
Qed.

Lemma rstrip_before_space (t r : string) :
  all_space r = true ->
  not_space (last_char t) = true ->
  rstrip (t ++ r) = t.
Proof.
  intros Hr. induction t as [|c t IH]; simpl.
  - intros _. now apply rstrip_all_space.
  - destruct t as [|c' t'].
    + simpl. intros Hc. apply negb_true_iff in Hc.
      rewrite rstrip_all_space by exact Hr. now rewrite Hc.
    + intros Hlast. rewrite IH by exact Hlast. reflexivity.
Qed.

Lemma trimmed_of_strip (s t : string) : trimmed_of s t -> t = strip s.
Proof.
  intros (l & r & -> & Hl & Hr & Hfirst & Hlast). unfold strip.
  rewrite lstrip_after_space by exact Hl.
  destruct t as [|c t'].
  - simpl. now rewrite lstrip_all_space by exact Hr.
  - simpl in Hfirst. apply negb_true_iff in Hfirst.
    change (String c t' ++ r)%string with (String c (t' ++ r)%string).
    cbn [lstrip]. rewrite Hfirst.
    change (String c (t' ++ r)%string) with (String c t' ++ r)%string.
    symmetry. now apply rstrip_before_space.
Qed.

Lemma tag_links_trimmed (nodes : list node) :
  Forall2 (fun tag s => trimmed_of (text tag) s) nodes
          (map (fun tag => strip (text tag)) nodes).
Proof.
  induction nodes as [|n rest IH]; simpl; constructor;
    [apply strip_trimmed | exact IH].
Qed.

Lemma tag_names_trimmed (ts : list string) : Forall2 trimmed_of ts (map strip ts).
Proof.
  induction ts as [|t rest IH]; simpl; constructor;
    [apply strip_trimmed | exact IH].
Qed.

(** C9.  The tags of an extracted quote are the texts of the tag links of
    its tags element with the white space at their two ends removed, in
    document order, one per link: nothing is dropped, merged or
    reordered, and trimming leaves one possible result.  A quote element
    whose tag links read change, deep-thoughts, thinking yields exactly
    that list, also when the link texts carry white space around them. *)
Theorem parse_quote_tags_in_markup_order :
  (forall el r,
      parse_quote el = Ok r ->
      exists t,
        find "div" (Some "tags") el = Some t /\
        Forall2 (fun tag s => trimmed_of (text tag) s)
                (find_all "a" (Some "tag") t) (tags r)) /\
  (forall q name href ts,
      exists trimmed,
        parse_quote (quote_element q name href ts)
        = Ok {| tags := trimmed; author := name; quote := q |} /\
        Forall2 trimmed_of ts trimmed) /\
  (forall s t t', trimmed_of s t -> trimmed_of s t' -> t = t') /\
  (forall q name href,
      parse_quote (quote_element q name href
                     ["change"; "deep-thoughts"; "thinking"])
      = Ok {| tags := ["change"; "deep-thoughts"; "thinking"];
              author := name; quote := q |}) /\
  (forall q name href,
      parse_quote (quote_element q name href
                     [" change"; "deep-thoughts  "; " thinking "])
      = Ok {| tags := ["change"; "deep-thoughts"; "thinking"];
              author := name; quote := q |}).
Proof.
  split; [|split; [|split; [|split]]].
  - intros el r H. apply parse_quote_ok in H as (a & q & t & _ & _ & Ht & ->).
    exists t. simpl. split; [exact Ht | apply tag_links_trimmed].
  - intros q name href ts. exists (map strip ts).
    split; [apply parse_quote_element | apply tag_names_trimmed].
  - intros s t t' Ht Ht'. apply trimmed_of_strip in Ht, Ht'. congruence.
  - intros q name href. apply parse_quote_element.
  - intros q name href. apply parse_quote_element.
Qed.

Lemma parse_quote_tags_in_markup_order_witness :
  parse_quote
    (quote_element
       "The world as we have created it is a process of our thinking."
       "Albert Einstein" "/author/Albert-Einstein"
       [" change"; "deep-thoughts  "; " thinking "])
  = Ok world_quote.
Proof.
  exact (proj2 (proj2 (proj2 (proj2 parse_quote_tags_in_markup_order))) _ _ _).
Defined.

(** ** [get_pages] *)

Lemma truthy_append (a b : string) :
  truthy a = true -> truthy (a ++ b)%string = true.
Proof. destruct a; simpl; [discriminate | reflexivity]. Qed.

Lemma get_pages_loop_chain (w : web) (base : string) :
  truthy base = true ->
  forall url hrefs,
    next_chain w base url hrefs ->
    truthy url = true ->
    forall fuel links,
      List.length hrefs < fuel ->
      get_pages_loop fuel w base links (Some url)
      = Some (Ok (links ++ map (String.append base) hrefs)).
Proof.
  intros Hbase url hrefs Hchain.
  induction Hchain as [url soup Hw Hnext | url soup li a hrefs Hw Hli Ha _ IH];
    intros Hurl fuel links Hfuel.
  - destruct fuel as [|fuel]; [inversion Hfuel|].
    simpl. rewrite Hurl. unfold get_soup. rewrite Hw, Hnext.
    destruct fuel; simpl; now rewrite app_nil_r.
  - destruct fuel as [|fuel]; [inversion Hfuel|].
    simpl in Hfuel.
    simpl get_pages_loop. rewrite Hurl. unfold get_soup. rewrite Hw, Hli, Ha.
    rewrite IH; [|now apply truthy_append | lia].
    simpl. now rewrite <- app_assoc.
Qed.

Lemma get_pages_chain (w : web) (base : string) (hrefs : list string)
  (fuel : nat) :
  truthy base = true ->
  next_chain w base base hrefs ->
  List.length hrefs < fuel ->
  get_pages fuel w base = Some (Ok (base :: map (String.append base) hrefs)).
Proof.
  intros Hbase Hchain Hfuel. unfold get_pages.
  now rewrite (get_pages_loop_chain Hbase Hchain Hbase [base] Hfuel).
Qed.

Lemma three_pages_chain :
  next_chain three_pages "http://quotes" "http://quotes"
             ["/page/2/"; "/page/3/"].
Proof.
  eapply (@chain_step three_pages "http://quotes" "http://quotes" _ _
            (Tag "a" [] [("href", "/page/2/")] [NavigableString "Next"]));
    [reflexivity | reflexivity | reflexivity |].
  eapply (@chain_step three_pages "http://quotes" _ _ _
            (Tag "a" [] [("href", "/page/3/")] [NavigableString "Next"]));
    [reflexivity | reflexivity | reflexivity |].
  eapply chain_end; reflexivity.
Qed.

(** C6, as amended.  Along a finite chain of next links that starts at a
    non-empty seed URL, [get_pages] ends at the first page without a next
    link and returns the seed followed by one URL per link followed, in
    crawl order; each URL is the seed with that page's own next link
    appended.  For the chain seed, A, B it returns seed, seed+A, seed+B. *)
Theorem get_pages_crawl_order (w : web) (base : string)
  (hrefs : list string) :
  truthy base = true ->
  next_chain w base base hrefs ->
  (forall fuel,
      List.length hrefs < fuel ->
      get_pages fuel w base
      = Some (Ok (base :: map (String.append base) hrefs))) /\
  (forall A B fuel,
      hrefs = [A; B] -> 2 < fuel ->
      get_pages fuel w base
      = Some (Ok [base; (base ++ A)%string; (base ++ B)%string])).
Proof.
  intros Hbase Hchain. split.
  - intros fuel Hfuel. now apply get_pages_chain.
  - intros A B fuel -> Hfuel. now rewrite (get_pages_chain Hbase Hchain).
Qed.

Lemma get_pages_crawl_order_witness :
  truthy "http://quotes" = true /\
  next_chain three_pages "http://quotes" "http://quotes"
             ["/page/2/"; "/page/3/"] /\
  get_pages 3 three_pages "http://quotes"
  = Some (Ok ["http://quotes"; "http://quotes/page/2/";
              "http://quotes/page/3/"]).
Proof.
  split; [reflexivity|]. split; [exact three_pages_chain|].
  apply (proj2 (@get_pages_crawl_order three_pages "http://quotes" _
                  eq_refl three_pages_chain) "/page/2/" "/page/3/" 3 eq_refl).
  lia.
Defined.

(** C6 as stated fails: on the chain seed, /page/2/, /page/3/ the walk
    never returns seed, seed+A, seed+A+B, whatever the fuel. *)
Lemma get_pages_not_cumulative :
  next_chain three_pages "http://quotes" "http://quotes"
             ["/page/2/"; "/page/3/"] /\
  forall fuel,
    get_pages fuel three_pages "http://quotes"
    <> Some (Ok ["http://quotes";
                 ("http://quotes" ++ "/page/2/")%string;
                 ("http://quotes" ++ "/page/2/" ++ "/page/3/")%string]).
Proof.
  split; [exact three_pages_chain|].
  intros fuel.
  destruct (Nat.lt_ge_cases 2 fuel) as [H|H].
  - rewrite (@get_pages_chain three_pages "http://quotes" _ fuel eq_refl
               three_pages_chain H).
    discriminate.
  - do 3 (destruct fuel as [|fuel]; [discriminate|]). lia.
Qed.

(** ** [get_authors_info]: deduplication *)

Lemma author_found_app (l1 l2 : list author_link) (n : string) :
  author_found (l1 ++ l2) n = author_found l1 n || author_found l2 n.
Proof. unfold author_found. apply existsb_app. Qed.

Lemma author_found_In (l : list author_link) (n : string) :
  author_found l n = true <-> In n (map author_name l).
Proof.
  unfold author_found. rewrite existsb_exists, in_map_iff. split.
  - intros (a & Ha & He). apply String.eqb_eq in He. eauto.
  - intros (a & He & Ha). exists a. split; [exact Ha|]. now apply String.eqb_eq.
Qed.

Lemma filter_filter {A : Type} (f g : A -> bool) (l : list A) :
  filter f (filter g l) = filter (fun x => g x && f x) l.
Proof.
  induction l as [|x l IH]; simpl; [reflexivity|].
  destruct (g x); simpl; [destruct (f x)|]; now rewrite IH.
Qed.

Lemma dedupe_into_app (refs1 refs2 seen : list author_link) :
  dedupe_into seen (refs1 ++ refs2) = dedupe_into (dedupe_into seen refs1) refs2.
Proof.
  revert seen. induction refs1 as [|r rest IH]; intros seen; simpl;
    [reflexivity|].
  destruct (author_found seen (author_name r)); apply IH.
Qed.

Lemma dedupe_into_dedupe (refs seen : list author_link) :
  dedupe_into seen refs = seen ++ filter (unseen seen) (dedupe refs).
Proof.
  revert seen. induction refs as [|r rest IH]; intros seen; simpl.
  - now rewrite app_nil_r.
  - unfold unseen at 1. destruct (author_found seen (author_name r)) eqn:Hf;
      simpl; rewrite IH, filter_filter.
    + f_equal. apply filter_ext_in. intros x _. unfold other_name, unseen.
      destruct (String.eqb_spec (author_name x) (author_name r)) as [->|_];
        simpl; [now rewrite Hf | reflexivity].
    + rewrite <- app_assoc. simpl. do 2 f_equal.
      apply filter_ext. intros x. unfold other_name, unseen.
      rewrite author_found_app. simpl. rewrite orb_false_r, negb_orb.
      rewrite (String.eqb_sym (author_name r)). apply andb_comm.
Qed.

Lemma dedupe_into_nil (refs : list author_link) :
  dedupe_into [] refs = dedupe refs.
Proof.
  rewrite dedupe_into_dedupe. simpl.
  rewrite (filter_ext (unseen []) (fun _ => true)); [|reflexivity].
  induction (dedupe refs) as [|x l IH]; simpl; congruence.
Qed.

Lemma authors_loop_page_refs (base_url : string) (qs : list node)
  (authors : list node) :
  forall el refs seen,
    page_refs base_url qs el authors = Ok refs ->
    authors_loop base_url qs el authors seen = Ok (dedupe_into seen refs).
Proof.
  induction authors as [|a rest IH]; intros el refs seen; simpl.
  - now intros [= <-].
  - destruct (nth_error qs el) as [q|]; [|discriminate].
    intros H. apply bind_ok in H as (lnk & Hl & H).
    apply bind_ok in H as (refs' & Hr & [= <-]). simpl.
    destruct (author_found seen (text a)); [now apply IH|].
    rewrite Hl. simpl. now apply IH.
Qed.

Lemma get_authors_info_from_refs (w : web) (base_url : string)
  (urls : list string) :
  forall refs seen,
    author_refs w base_url urls = Ok refs ->
    get_authors_info_from w base_url urls seen = Ok (dedupe_into seen refs).
Proof.
  induction urls as [|url rest IH]; intros refs seen; simpl.
  - now intros [= <-].
  - intros H. apply bind_ok in H as (soup & Hs & H).
    apply bind_ok in H as (refs1 & H1 & H).
    apply bind_ok in H as (refs2 & H2 & [= <-]).
    rewrite Hs. simpl.
    rewrite (authors_loop_page_refs _ _ _ _ seen H1). simpl.
    rewrite dedupe_into_app. now apply IH.
Qed.

(** *** What [dedupe] keeps *)

Lemma dedupe_names (refs : list author_link) (n : string) :
  In n (map author_name (dedupe refs)) <-> In n (map author_name refs).
Proof.
  induction refs as [|r rest IH]; simpl; [tauto|].
  rewrite <- IH, !in_map_iff. split.
  - intros [H|(x & Hx & Hin)]; [now left|].
    apply filter_In in Hin as [Hin _]. right. eauto.
  - intros [H|(x & Hx & Hin)]; [now left|].
    destruct (String.eqb_spec (author_name x) (author_name r)) as [E|E].
    + left. congruence.
    + right. exists x. split; [exact Hx|]. apply filter_In. split; [exact Hin|].
      unfold other_name. now apply negb_true_iff, String.eqb_neq.
Qed.

Lemma filter_keeps_names_distinct (keep : author_link -> bool)
  (refs : list author_link) :
  NoDup (map author_name refs) ->
  NoDup (map author_name (filter keep refs)).
Proof.
  induction refs as [|r refs IH]; simpl; [auto|].
  intros H. apply NoDup_cons_iff in H as [Hr Hrefs].
  destruct (keep r); simpl; [|auto].
  constructor; [|auto].
  intros Hin. apply Hr. apply in_map_iff in Hin as (y & Hy & Hin).
  apply filter_In in Hin as [Hin _]. apply in_map_iff. eauto.
Qed.

Lemma dedupe_NoDup (refs : list author_link) :
  NoDup (map author_name (dedupe refs)).
Proof.
  induction refs as [|r rest IH]; simpl; constructor.
  - intros Hin. apply in_map_iff in Hin as (x & Hx & Hin).
    apply filter_In in Hin as [_ Hne]. unfold other_name in Hne.
    apply negb_true_iff, String.eqb_neq in Hne. congruence.
  - now apply filter_keeps_names_distinct.
Qed.

Lemma subseq_filter {A : Type} (p : A -> bool) (l : list A) :
  subseq (filter p l) l.
Proof.
  induction l as [|x l IH]; simpl; [apply subseq_nil|].
  destruct (p x); [now apply subseq_keep | now apply subseq_skip].
Qed.

Lemma subseq_trans {A : Type} (l1 l2 l3 : list A) :
  subseq l1 l2 -> subseq l2 l3 -> subseq l1 l3.
Proof.
  intros H12 H23. revert l1 H12.
  induction H23 as [|x l2 l3 _ IH|x l2 l3 _ IH]; intros l1 H12.
  - exact H12.
  - apply subseq_skip. now apply IH.
  - inversion H12; subst; [apply subseq_skip | apply subseq_keep];
      now apply IH.
Qed.

Lemma dedupe_subseq (refs : list author_link) : subseq (dedupe refs) refs.
Proof.
  induction refs as [|r rest IH]; simpl; [apply subseq_nil|].
  apply subseq_keep.
  eapply subseq_trans; [apply subseq_filter | exact IH].
Qed.

Lemma dedupe_first (refs : list author_link) (r : author_link) :
  In r (dedupe refs) ->
  exists before after,
    refs = before ++ r :: after /\
    ~ In (author_name r) (map author_name before).
Proof.
  induction refs as [|r0 rest IH]; simpl; [contradiction|].
  intros [<-|Hin].
  - exists [], rest. auto.
  - apply filter_In in Hin as [Hin Hne].
    destruct (IH Hin) as (before & after & -> & Hb).
    exists (r0 :: before), after. split; [reflexivity|].
    simpl. intros [E|E]; [|auto].
    unfold other_name in Hne. apply negb_true_iff, String.eqb_neq in Hne.
    congruence.
Qed.

(** C5.  When the references of the crawled pages can all be read,
    [get_authors_info] returns their deduplication by name: one reference
    for each name that occurs, no name twice, in the order of first
    occurrence, and each kept reference is the first one of its name, so
    its URL is that of the first occurrence. *)
Theorem get_authors_info_dedupes (w : web) (base_url : string)
  (urls : list string) (refs : list author_link) :
  author_refs w base_url urls = Ok refs ->
  get_authors_info w base_url urls = Ok (dedupe refs) /\
  NoDup (map author_name (dedupe refs)) /\
  (forall n, In n (map author_name (dedupe refs)) <->
             In n (map author_name refs)) /\
  subseq (dedupe refs) refs /\
  (forall r,
      In r (dedupe refs) ->
      exists before after,
        refs = before ++ r :: after /\
        ~ In (author_name r) (map author_name before)).
Proof.
  intros H. split.
  - unfold get_authors_info.
    rewrite (get_authors_info_from_refs _ _ _ [] H). now rewrite dedupe_into_nil.
  - split; [apply dedupe_NoDup|]. split; [apply dedupe_names|].
    split; [apply dedupe_subseq | apply dedupe_first].
Qed.

Lemma get_authors_info_dedupes_witness :
  author_refs site "http://quotes" ["http://quotes"; "http://quotes/page/2/"]
  = Ok [ {| author_name := "Albert Einstein";
            author_info_url := "http://quotes/author/Albert-Einstein" |};
         {| author_name := "J.K. Rowling";
            author_info_url := "http://quotes/author/J-K-Rowling" |};
         {| author_name := "Albert Einstein";
            author_info_url := "http://quotes/author/Albert-Einstein" |} ] /\
  get_authors_info site "http://quotes"
                   ["http://quotes"; "http://quotes/page/2/"]
  = Ok [ {| author_name := "Albert Einstein";
            author_info_url := "http://quotes/author/Albert-Einstein" |};
         {| author_name := "J.K. Rowling";
            author_info_url := "http://quotes/author/J-K-Rowling" |} ].
Proof.
  split; [reflexivity|].
  exact (proj1 (@get_authors_info_dedupes site "http://quotes"
                  ["http://quotes"; "http://quotes/page/2/"] _ eq_refl)).
Defined.

(** A later reference of the same name is dropped even when its URL is
    another one. *)
Example dedupe_keeps_first_url :
  dedupe [ {| author_name := "Albert Einstein";
              author_info_url := "http://quotes/author/Albert-Einstein" |};
           {| author_name := "J.K. Rowling";
              author_info_url := "http://quotes/author/J-K-Rowling" |};
           {| author_name := "Albert Einstein";
              author_info_url := "http://quotes/author/Another-Einstein" |} ]
  = [ {| author_name := "Albert Einstein";
         author_info_url := "http://quotes/author/Albert-Einstein" |};
      {| author_name := "J.K. Rowling";
         author_info_url := "http://quotes/author/J-K-Rowling" |} ].
Proof. reflexivity. Qed.

(** ** [get_authors_info]: pairing names and links by index *)

Lemma node_tree_ind (P : node -> Prop) :
  (forall s, P (NavigableString s)) ->
  (forall nm cls ats cs, Forall P cs -> P (Tag nm cls ats cs)) ->
  forall n, P n.
Proof.
  intros Hs Ht. fix IH 1. intros [s|nm cls ats cs]; [apply Hs|].
  apply Ht. induction cs as [|c cs IHcs]; constructor; [apply IH | exact IHcs].
Qed.

Lemma quote_not_author (n : node) : is_quote n = true -> is_author n = false.
Proof.
  destruct n as [s|nm cls ats cs]; simpl; [discriminate|].
  unfold is_quote, is_author. simpl.
  destruct (String.eqb_spec nm "div") as [->|]; [reflexivity | discriminate].
Qed.

Lemma authors_inside_quotes (n : node) :
  stray_authors n = [] ->
  Forall (fun q => filter is_quote (descendants q) = [])
         (filter is_quote (descendants n)) ->
  filter is_author (descendants n)
  = flat_map (fun q => filter is_author (descendants q))
             (filter is_quote (descendants n)).
Proof.
  induction n as [s|nm cls ats cs IH] using node_tree_ind; [reflexivity|].
  cbn [stray_authors descendants].
  induction cs as [|c cs IHcs]; [reflexivity|].
  cbn [flat_map]. intros Hstray Hnest.
  apply app_eq_nil in Hstray as [Hc Hcs].
  inversion IH as [|? ? IHc IHrest]; subst.
  rewrite filter_app in Hnest. apply Forall_app in Hnest as [Hnc Hncs].
  rewrite !filter_app, flat_map_app.
  rewrite (IHcs IHrest Hcs Hncs). f_equal.
  cbn [filter] in *.
  destruct (is_quote c) eqn:Hq.
  - rewrite (quote_not_author _ Hq).
    inversion Hnc as [|? ? Hin _]; subst. rewrite Hin.
    cbn [flat_map]. now rewrite app_nil_r.
  - apply app_eq_nil in Hc as [Ha Hs].
    destruct (is_author c); [discriminate|]. now apply IHc.
Qed.

Lemma flat_map_singletons {A B : Type} (f : A -> list B) (l : list A) :
  Forall (fun x => List.length (f x) = 1) l ->
  Forall2 (fun y x => hd_error (f x) = Some y) (flat_map f l) l.
Proof.
  induction 1 as [|x l Hx _ IH]; simpl; [constructor|].
  destruct (f x) as [|y [|? ?]] eqn:E; try discriminate.
  simpl. constructor; [now rewrite E | exact IH].
Qed.

Lemma names_line_up (soup : node) :
  one_author_per_quote soup ->
  Forall2 (fun a q => find "small" (Some "author") q = Some a)
          (find_all "small" (Some "author") soup)
          (find_all "div" (Some "quote") soup).
Proof.
  intros (Hstray & Hnest & Hone). unfold find_all in *.
  change (matches "small" (Some "author")) with is_author in *.
  change (matches "div" (Some "quote")) with is_quote in *.
  rewrite (authors_inside_quotes _ Hstray Hnest).
  unfold find. now apply flat_map_singletons.
Qed.

Lemma Forall2_nth_error {A B : Type} (R : A -> B -> Prop) (l : list A)
  (l' : list B) :
  Forall2 R l l' ->
  forall i a, nth_error l i = Some a ->
              exists b, nth_error l' i = Some b /\ R a b.
Proof.
  induction 1 as [|x y l l' Hxy _ IH]; intros [|i] a; simpl; try discriminate.
  - intros [= <-]. eauto.
  - apply IH.
Qed.

Lemma authors_loop_app (base_url : string) (qs : list node)
  (authors1 authors2 : list node) :
  forall el seen,
    authors_loop base_url qs el (authors1 ++ authors2) seen
    = bind (authors_loop base_url qs el authors1 seen)
           (fun seen' =>
              authors_loop base_url qs (el + List.length authors1)
                           authors2 seen').
Proof.
  induction authors1 as [|a rest IH]; intros el seen; simpl.
  - now rewrite Nat.add_0_r.
  - rewrite Nat.add_succ_r.
    destruct (author_found seen (text a)); [apply (IH (S el))|].
    destruct (nth_error qs el) as [q|]; [|reflexivity].
    destruct (find "a" (Some EmptyString) q); simpl; [apply (IH (S el))|].
    reflexivity.
Qed.

Lemma authors_loop_known (base_url : string) (qs : list node)
  (authors : list node) :
  forall el seen,
    Forall (fun a => author_found seen (text a) = true) authors ->
    authors_loop base_url qs el authors seen = Ok seen.
Proof.
  induction authors as [|a rest IH]; intros el seen H; simpl; [reflexivity|].
  inversion H as [|? ? Ha Hrest]; subst. rewrite Ha. now apply IH.
Qed.

(** The loop never leaves the index range when every author-name element
    from [el] on has a quote element at its index. *)
Lemma authors_loop_in_range (base_url : string) (qs : list node)
  (authors : list node) :
  forall el seen,
    el + List.length authors <= List.length qs ->
    authors_loop base_url qs el authors seen <> Raise IndexError.
Proof.
  induction authors as [|a rest IH]; intros el seen Hlen; simpl;
    [discriminate|].
  simpl in Hlen.
  destruct (author_found seen (text a)); [apply IH; lia|].
  destruct (nth_error qs el) as [q|] eqn:Hq.
  - destruct (find "a" (Some EmptyString) q); simpl;
      [apply IH; lia | discriminate].
  - apply nth_error_None in Hq. lia.
Qed.

(** Every reference the loop adds pairs the text of an author-name element
    with the link of the quote element at the same index. *)
Lemma authors_loop_pairs (base_url : string) (qs : list node)
  (authors : list node) :
  forall el seen out,
    authors_loop base_url qs el authors seen = Ok out ->
    forall r,
      In r out ->
      In r seen \/
      exists i a q lnk,
        nth_error authors i = Some a /\
        nth_error qs (el + i) = Some q /\
        find "a" (Some EmptyString) q = Some lnk /\
        r = {| author_name := text a;
               author_info_url :=
                 (base_url ++ attrs_get (attrs lnk) "href" EmptyString)%string |}.
Proof.
  induction authors as [|a rest IH]; intros el seen out; simpl.
  - intros [= <-] r Hr. now left.
  - assert (Hshift : forall seen' out',
               authors_loop base_url qs (S el) rest seen' = Ok out' ->
               forall r, In r out' ->
                 In r seen' \/
                 exists i a0 q lnk,
                   nth_error (a :: rest) i = Some a0 /\
                   nth_error qs (el + i) = Some q /\
                   find "a" (Some EmptyString) q = Some lnk /\
                   r = {| author_name := text a0;
                          author_info_url :=
                            (base_url ++
                             attrs_get (attrs lnk) "href" EmptyString)%string |}).
    { intros seen' out' H r Hr.
      destruct (IH _ _ _ H r Hr) as [Hs|(i & a0 & q & lnk & Ha & Hq & Hl & E)];
        [now left|].
      right. exists (S i), a0, q, lnk. rewrite Nat.add_succ_r. auto. }
    destruct (author_found seen (text a)); [apply Hshift|].
    destruct (nth_error qs el) as [q|] eqn:Hq; [|discriminate].
    destruct (find "a" (Some EmptyString) q) as [lnk|] eqn:Hl; simpl;
      [|discriminate].
    intros H r Hr.
    destruct (Hshift _ _ H r Hr) as [Hs|Hs]; [|now right].
    apply in_app_or in Hs as [Hs|[<-|[]]]; [now left|].
    right. exists 0, a, q, lnk. rewrite Nat.add_0_r. auto.
Qed.

Lemma site_page_lines_up :
  one_author_per_quote
    (listing_page [einstein_world; rowling_choices] (Some "/page/2/")).
Proof.
  split; [reflexivity|]. split; vm_compute; repeat constructor.
Qed.

(** C10, as amended.  [get_authors_info] pairs the author-name element at
    index i of a page with the link of the quote element at index i.  On a
    page where every author name lies in a quote element, no quote element
    lies in another and each holds one author name, the two lists have the
    same length, the name at index i is the one of the quote element at
    index i, and no index is out of range.  The loop raises the
    out-of-range error when it reaches, at an index past the last quote
    element, a name it has not collected yet; with only collected names
    there, it ends normally. *)
Theorem names_paired_with_links_by_index (base_url : string) (soup : node) :
  (forall seen out,
      authors_loop base_url (find_all "div" (Some "quote") soup) 0
                   (find_all "small" (Some "author") soup) seen = Ok out ->
      forall r,
        In r out ->
        In r seen \/
        exists i a q lnk,
          nth_error (find_all "small" (Some "author") soup) i = Some a /\
          nth_error (find_all "div" (Some "quote") soup) i = Some q /\
          find "a" (Some EmptyString) q = Some lnk /\
          r = {| author_name := text a;
                 author_info_url :=
                   (base_url ++ attrs_get (attrs lnk) "href" EmptyString)%string |}) /\
  (one_author_per_quote soup ->
   List.length (find_all "small" (Some "author") soup)
   = List.length (find_all "div" (Some "quote") soup) /\
   (forall i a,
       nth_error (find_all "small" (Some "author") soup) i = Some a ->
       exists q,
         nth_error (find_all "div" (Some "quote") soup) i = Some q /\
         find "small" (Some "author") q = Some a) /\
   (forall seen,
       authors_loop base_url (find_all "div" (Some "quote") soup) 0
                    (find_all "small" (Some "author") soup) seen
       <> Raise IndexError)) /\
  (forall before a after seen seen',
      find_all "small" (Some "author") soup = before ++ a :: after ->
      List.length (find_all "div" (Some "quote") soup) <= List.length before ->
      authors_loop base_url (find_all "div" (Some "quote") soup) 0
                   before seen = Ok seen' ->
      author_found seen' (text a) = false ->
      authors_loop base_url (find_all "div" (Some "quote") soup) 0
                   (find_all "small" (Some "author") soup) seen
      = Raise IndexError) /\
  (forall before after seen seen',
      find_all "small" (Some "author") soup = before ++ after ->
      authors_loop base_url (find_all "div" (Some "quote") soup) 0
                   before seen = Ok seen' ->
      Forall (fun a => author_found seen' (text a) = true) after ->
      authors_loop base_url (find_all "div" (Some "quote") soup) 0
                   (find_all "small" (Some "author") soup) seen
      = Ok seen').
Proof.
  split; [|split; [|split]].
  - intros seen out H r Hr.
    destruct (authors_loop_pairs _ _ _ _ _ H r Hr) as [Hs|Hs]; [now left|].
    right. exact Hs.
  - intros Hone. pose proof (names_line_up Hone) as HF.
    pose proof (Forall2_same_length HF) as Hlen.
    split; [exact Hlen|]. split.
    + intros i a Ha. exact (Forall2_nth_error HF i Ha).
    + intros seen. apply authors_loop_in_range. simpl. lia.
  - intros before a after seen seen' Hsplit Hlen Hbefore Hnew.
    rewrite Hsplit, authors_loop_app, Hbefore. simpl. rewrite Hnew.
    destruct (nth_error (find_all "div" (Some "quote") soup)
                        (List.length before)) eqn:E; [|reflexivity].
    assert (nth_error (find_all "div" (Some "quote") soup)
                      (List.length before) <> None) as Hsome by congruence.
    apply nth_error_Some in Hsome. lia.
  - intros before after seen seen' Hsplit Hbefore Hknown.
    rewrite Hsplit, authors_loop_app, Hbefore. simpl.
    now apply authors_loop_known.
Qed.

Lemma names_paired_with_links_by_index_witness :
  one_author_per_quote
    (listing_page [einstein_world; rowling_choices] (Some "/page/2/")) /\
  List.length
    (find_all "small" (Some "author")
       (listing_page [einstein_world; rowling_choices] (Some "/page/2/")))
  = 2 /\
  get_authors_info site "http://quotes" ["http://quotes"]
  = Ok [ {| author_name := "Albert Einstein";
            author_info_url := "http://quotes/author/Albert-Einstein" |};
         {| author_name := "J.K. Rowling";
            author_info_url := "http://quotes/author/J-K-Rowling" |} ].
Proof.
  split; [exact site_page_lines_up|]. split; [|reflexivity].
  rewrite (proj1 (proj1 (proj2 (names_paired_with_links_by_index
                                  "http://quotes" _))
                        site_page_lines_up)).
  reflexivity.
Defined.

(** C10 as stated fails twice.  A page with two author-name elements and
    one quote element is read without any error when the second name
    repeats the first; and a page whose only quote element holds exactly
    one author name, with another name above it, gives the first name the
    link of the other author and then runs out of range. *)
Lemma index_pairing_counterexample :
  (List.length (find_all "small" (Some "author") repeated_name_page) = 2 /\
   List.length (find_all "div" (Some "quote") repeated_name_page) = 1 /\
   get_authors_info (only_page repeated_name_page) "http://quotes"
                    ["http://quotes"]
   = Ok [ {| author_name := "Albert Einstein";
             author_info_url := "http://quotes/author/Albert-Einstein" |} ]) /\
  (Forall (fun q => List.length (find_all "small" (Some "author") q) = 1)
          (find_all "div" (Some "quote") byline_page) /\
   authors_loop "http://quotes" (find_all "div" (Some "quote") byline_page) 0
                (firstn 1 (find_all "small" (Some "author") byline_page)) []
   = Ok [ {| author_name := "J.K. Rowling";
             author_info_url := "http://quotes/author/Albert-Einstein" |} ] /\
   get_authors_info (only_page byline_page) "http://quotes" ["http://quotes"]
   = Raise IndexError).
Proof.
  split; [repeat split|split; [|split]]; try reflexivity.
  vm_compute. repeat constructor.
Qed.

(** ** Persistence *)

Lemma for_each_run {A : Type} (body : A -> DB unit) (step : A -> store -> store)
  (l : list A) :
  forall st,
    (forall x s, In x l -> body x s = (Ok tt, step x s)) ->
    for_each body l st = (Ok tt, fold_left (fun s x => step x s) l st).
Proof.
  induction l as [|x rest IH]; intros st H; simpl; [reflexivity|].
  unfold bindDB. rewrite (H x st (or_introl eq_refl)).
  apply IH. intros y s Hy. apply H. now right.
Qed.

Lemma find_existsb {A : Type} (p : A -> bool) (l : list A) :
  existsb p l = match List.find p l with Some _ => true | None => false end.
Proof.
  induction l as [|x l IH]; simpl; [reflexivity|]. now destruct (p x).
Qed.

Lemma stored_fullname_find (name : string) (st : store) :
  stored_fullname name st = true <->
  exists a, List.find (has_fullname name) (db_authors st) = Some a.
Proof.
  unfold stored_fullname. rewrite find_existsb.
  destruct (List.find _ _); split; eauto; try discriminate.
  now intros (a & [=]).
Qed.

(** *** The checked variant never raises *)

Lemma oop_author_step (m : models) (d : author_data) (st : store) :
  (found <- Author_objects_first (fullname d) ;;
   match found with
   | None => Author_save m d
   | Some _ => ret tt
   end) st
  = (Ok tt, persist_author d st).
Proof.
  unfold bindDB, Author_objects_first, Author_save, persist_author,
    stored_fullname, ret.
  rewrite find_existsb.
  destruct (List.find (has_fullname (fullname d)) (db_authors st)) eqn:E;
    [reflexivity|].
  rewrite find_existsb, E. now rewrite andb_false_r.
Qed.

Lemma oop_quote_step (m : models) (q : quote_data) (st : store) :
  (a <- Author_objects_first (author q) ;;
   match a with
   | Some a' =>
       found <- Quote_objects_first (quote q) ;;
       match found with
       | None => Quote_save m (tags q) a' (quote q)
       | Some _ => ret tt
       end
   | None => ret tt
   end) st
  = (Ok tt, persist_quote q st).
Proof.
  unfold bindDB, Author_objects_first, Quote_objects_first, Quote_save,
    persist_quote, stored_text, ret.
  destruct (List.find (has_fullname (author q)) (db_authors st));
    [|reflexivity].
  rewrite find_existsb.
  destruct (List.find (has_text (quote q)) (db_quotes st)) eqn:E;
    [reflexivity|].
  rewrite find_existsb, E. now rewrite andb_false_r.
Qed.

Lemma oop_upload_authors (m : models) (authors_data : list author_data)
  (st : store) :
  OopAsincio.upload_author_data m authors_data st
  = (Ok tt, persistAuthors authors_data st).
Proof.
  unfold OopAsincio.upload_author_data, persistAuthors.
  apply for_each_run. intros d s _. apply oop_author_step.
Qed.

Lemma oop_upload_quotes (m : models) (quotes_data : list quote_data)
  (st : store) :
  OopAsincio.upload_quotes_data m quotes_data st
  = (Ok tt, persistQuotes quotes_data st).
Proof.
  unfold OopAsincio.upload_quotes_data, persistQuotes.
  apply for_each_run. intros q s _. apply oop_quote_step.
Qed.

(** *** The unchecked variants without a unique index *)

Lemma main_upload_authors (m : models) (authors_data : list author_data)
  (st : store) :
  unique_fullname m = false ->
  Main.upload_author_data m authors_data st
  = (Ok tt, insert_authors authors_data st).
Proof.
  intros Hm. unfold Main.upload_author_data, insert_authors.
  apply for_each_run. intros d s _. unfold Author_save. now rewrite Hm.
Qed.

Lemma main_upload_quotes (m : models) (quotes_data : list quote_data)
  (st : store) :
  unique_quote m = false ->
  Main.upload_quotes_data m quotes_data st
  = (Ok tt, insert_quotes quotes_data st).
Proof.
  intros Hm. unfold Main.upload_quotes_data, insert_quotes.
  apply for_each_run. intros q s _.
  unfold bindDB, Author_objects_first, insert_resolved, Quote_save, ret.
  destruct (List.find _ _); [|reflexivity]. now rewrite Hm.
Qed.

Lemma motor_upload_authors (authors_data : list author_data) (st : store) :
  authors_data <> [] ->
  Motor.upload_author_data authors_data st
  = (Ok tt, insert_authors authors_data st).
Proof.
  unfold Motor.upload_author_data, Motor.insert_many, insert_authors.
  destruct authors_data; [congruence | reflexivity].
Qed.

Lemma motor_upload_quotes (quotes_data : list quote_data) (st : store) :
  Motor.upload_quotes_data quotes_data st
  = (Ok tt, insert_quotes quotes_data st).
Proof.
  unfold Motor.upload_quotes_data, insert_quotes.
  apply for_each_run. intros q s _.
  unfold bindDB, Motor.find_one, Motor.insert_one, insert_resolved, ret.
  now destruct (List.find _ _).
Qed.

(** *** What insert-if-absent leaves in the store *)

Lemma stored_fullname_In (name : string) (st : store) :
  stored_fullname name st = true <-> In name (map stored_name (db_authors st)).
Proof.
  unfold stored_fullname. rewrite existsb_exists, in_map_iff. split.
  - intros (a & Ha & He). apply String.eqb_eq in He. eauto.
  - intros (a & He & Ha). exists a. split; [exact Ha|]. now apply String.eqb_eq.
Qed.

Lemma stored_text_In (q : string) (st : store) :
  stored_text q st = true <-> In q (map quote_text (db_quotes st)).
Proof.
  unfold stored_text. rewrite existsb_exists, in_map_iff. split.
  - intros (a & Ha & He). apply String.eqb_eq in He. eauto.
  - intros (a & He & Ha). exists a. split; [exact Ha|]. now apply String.eqb_eq.
Qed.

Lemma persist_author_quotes (d : author_data) (st : store) :
  db_quotes (persist_author d st) = db_quotes st.
Proof. unfold persist_author. now destruct (stored_fullname _ _). Qed.

Lemma persist_quote_authors (q : quote_data) (st : store) :
  db_authors (persist_quote q st) = db_authors st.
Proof.
  unfold persist_quote. destruct (List.find _ _); [|reflexivity].
  now destruct (stored_text _ _).
Qed.

Lemma persistAuthors_quotes (records : list author_data) (st : store) :
  db_quotes (persistAuthors records st) = db_quotes st.
Proof.
  revert st. induction records as [|d rest IH]; intros st; [reflexivity|].
  unfold persistAuthors in *. simpl. now rewrite IH, persist_author_quotes.
Qed.

Lemma persistQuotes_authors (records : list quote_data) (st : store) :
  db_authors (persistQuotes records st) = db_authors st.
Proof.
  revert st. induction records as [|q rest IH]; intros st; [reflexivity|].
  unfold persistQuotes in *. simpl. now rewrite IH, persist_quote_authors.
Qed.

Lemma persist_author_stored (d : author_data) (st : store) :
  stored_fullname (fullname d) (persist_author d st) = true.
Proof.
  unfold persist_author. destruct (stored_fullname (fullname d) st) eqn:E;
    [exact E|].
  apply stored_fullname_In. simpl. rewrite map_app. apply in_or_app. right.
  now left.
Qed.

Lemma persist_author_keeps (d : author_data) (name : string) (st : store) :
  stored_fullname name st = true ->
  stored_fullname name (persist_author d st) = true.
Proof.
  unfold persist_author. destruct (stored_fullname (fullname d) st); [auto|].
  rewrite !stored_fullname_In. simpl. rewrite map_app. intros H.
  apply in_or_app. now left.
Qed.

Lemma persistAuthors_keeps (records : list author_data) (name : string) :
  forall st,
    stored_fullname name st = true ->
    stored_fullname name (persistAuthors records st) = true.
Proof.
  induction records as [|d rest IH]; intros st H; [exact H|].
  apply (IH (persist_author d st)). now apply persist_author_keeps.
Qed.

Lemma persistAuthors_stored (records : list author_data) :
  forall st d,
    In d records ->
    stored_fullname (fullname d) (persistAuthors records st) = true.
Proof.
  induction records as [|d0 rest IH]; intros st d; [contradiction|].
  intros [<-|Hin].
  - apply (persistAuthors_keeps rest). apply persist_author_stored.
  - apply (IH (persist_author d0 st)). exact Hin.
Qed.

Lemma persistAuthors_settled (records : list author_data) (st : store) :
  (forall d, In d records -> stored_fullname (fullname d) st = true) ->
  persistAuthors records st = st.
Proof.
  induction records as [|d rest IH]; intros H; [reflexivity|].
  unfold persistAuthors in *. simpl. unfold persist_author at 2.
  rewrite (H d (or_introl eq_refl)). apply IH.
  intros d' Hd'. apply H. now right.
Qed.

(** The authors a run of insert-if-absent adds. *)
Lemma persistAuthors_new (records : list author_data) :
  forall st,
  exists new,
    db_authors (persistAuthors records st) = db_authors st ++ new /\
    Forall (fun a => stored_fullname (stored_name a) st = false /\
                     In (author_fields a) records) new /\
    NoDup (map stored_name new).
Proof.
  induction records as [|d rest IH]; intros st.
  - exists []. simpl. rewrite app_nil_r. repeat split; constructor.
  - destruct (IH (persist_author d st)) as (new & Hdb & Hnew & Hnd).
    change (persistAuthors (d :: rest) st)
      with (persistAuthors rest (persist_author d st)).
    unfold persist_author in Hdb, Hnew |- *.
    destruct (stored_fullname (fullname d) st) eqn:Hd.
    + exists new. split; [exact Hdb|]. split; [|exact Hnd].
      eapply Forall_impl; [|exact Hnew]. simpl. intros a [H1 H2]. auto.
    + exists ({| author_id := db_next_id st; author_fields := d |} :: new).
      simpl in Hdb. rewrite <- app_assoc in Hdb. split; [exact Hdb|].
      assert (Hlater : forall a, In a new ->
                 stored_fullname (stored_name a) (insert_author d st) = false).
      { intros a Ha. rewrite Forall_forall in Hnew. now apply Hnew. }
      split.
      * constructor; [simpl; auto|].
        apply Forall_forall. intros a Ha. split.
        -- destruct (stored_fullname (stored_name a) st) eqn:E; [|reflexivity].
           rewrite <- (Hlater a Ha). symmetry.
           apply stored_fullname_In. simpl. rewrite map_app. apply in_or_app.
           left. now apply stored_fullname_In.
        -- rewrite Forall_forall in Hnew. right. now apply Hnew.
      * simpl. constructor; [|exact Hnd].
        intros Hin. apply in_map_iff in Hin as (a & Ha & Hin).
        pose proof (Hlater a Hin) as Hf. rewrite Ha in Hf.
        assert (stored_fullname (stored_name
                  {| author_id := db_next_id st; author_fields := d |})
                  (insert_author d st) = true) as Ht.
        { apply stored_fullname_In. simpl. rewrite map_app. apply in_or_app.
          right. now left. }
        congruence.
Qed.

Lemma NoDup_app_disjoint {A : Type} (l1 l2 : list A) :
  NoDup l1 -> NoDup l2 -> (forall x, In x l2 -> ~ In x l1) -> NoDup (l1 ++ l2).
Proof.
  induction l1 as [|x l1 IH]; intros H1 H2 Hd; simpl; [exact H2|].
  apply NoDup_cons_iff in H1 as [Hx H1]. constructor.
  - intros Hin. apply in_app_or in Hin as [Hin|Hin]; [auto|].
    apply (Hd x Hin). now left.
  - apply IH; auto. intros y Hy Hy'. apply (Hd y Hy). now right.
Qed.

Lemma persistAuthors_NoDup (records : list author_data) (st : store) :
  NoDup (map stored_name (db_authors st)) ->
  NoDup (map stored_name (db_authors (persistAuthors records st))).
Proof.
  intros Hst. destruct (persistAuthors_new records st) as (new & -> & Hnew & Hnd).
  rewrite map_app. apply NoDup_app_disjoint; auto.
  intros n Hn Hst'. apply in_map_iff in Hn as (a & <- & Ha).
  rewrite Forall_forall in Hnew. destruct (Hnew a Ha) as [Hf _].
  apply stored_fullname_In in Hst'. congruence.
Qed.

Lemma persist_quote_stored (q : quote_data) (st : store) :
  List.find (has_fullname (author q)) (db_authors st) <> None ->
  stored_text (quote q) (persist_quote q st) = true.
Proof.
  unfold persist_quote. destruct (List.find _ _) as [a|]; [intros _|congruence].
  destruct (stored_text (quote q) st) eqn:E; [exact E|].
  apply stored_text_In. simpl. rewrite map_app. apply in_or_app. right.
  now left.
Qed.

Lemma persist_quote_keeps (q : quote_data) (t : string) (st : store) :
  stored_text t st = true -> stored_text t (persist_quote q st) = true.
Proof.
  unfold persist_quote. destruct (List.find _ _); [|auto].
  destruct (stored_text (quote q) st); [auto|].
  rewrite !stored_text_In. simpl. rewrite map_app. intros H.
  apply in_or_app. now left.
Qed.

Lemma persistQuotes_keeps (records : list quote_data) (t : string) :
  forall st,
    stored_text t st = true -> stored_text t (persistQuotes records st) = true.
Proof.
  induction records as [|q rest IH]; intros st H; [exact H|].
  apply (IH (persist_quote q st)). now apply persist_quote_keeps.
Qed.

Lemma persistQuotes_stored (records : list quote_data) :
  forall st q,
    In q records ->
    List.find (has_fullname (author q)) (db_authors st) <> None ->
    stored_text (quote q) (persistQuotes records st) = true.
Proof.
  induction records as [|q0 rest IH]; intros st q; [contradiction|].
  intros [<-|Hin] Hfound.
  - apply (persistQuotes_keeps rest). now apply persist_quote_stored.
  - apply (IH (persist_quote q0 st)); [exact Hin|].
    now rewrite persist_quote_authors.
Qed.

Lemma persistQuotes_settled (records : list quote_data) (st : store) :
  (forall q, In q records ->
             List.find (has_fullname (author q)) (db_authors st) = None \/
             stored_text (quote q) st = true) ->
  persistQuotes records st = st.
Proof.
  induction records as [|q rest IH]; intros H; [reflexivity|].
  unfold persistQuotes in *. simpl.
  assert (persist_quote q st = st) as ->.
  { unfold persist_quote. destruct (H q (or_introl eq_refl)) as [E|E].
    - now rewrite E.
    - rewrite E. now destruct (List.find _ _). }
  apply IH. intros q' Hq'. apply H. now right.
Qed.

(** The quotes a run of insert-if-absent adds: each comes from a record
    whose author the store resolved, and carries that author's identity. *)
Lemma persistQuotes_new (records : list quote_data) :
  forall st,
  exists new,
    db_quotes (persistQuotes records st) = db_quotes st ++ new /\
    Forall (fun d =>
              stored_text (quote_text d) st = false /\
              exists q a,
                In q records /\
                List.find (has_fullname (author q)) (db_authors st) = Some a /\
                quote_of q a d) new /\
    NoDup (map quote_text new).
Proof.
  induction records as [|q rest IH]; intros st.
  - exists []. simpl. rewrite app_nil_r. repeat split; constructor.
  - destruct (IH (persist_quote q st)) as (new & Hdb & Hnew & Hnd).
    change (persistQuotes (q :: rest) st)
      with (persistQuotes rest (persist_quote q st)).
    rewrite persist_quote_authors in Hnew.
    assert (Hweak : forall d,
               (exists q0 a, In q0 rest /\
                  List.find (has_fullname (author q0)) (db_authors st) = Some a /\
                  quote_of q0 a d) ->
               exists q0 a, In q0 (q :: rest) /\
                  List.find (has_fullname (author q0)) (db_authors st) = Some a /\
                  quote_of q0 a d).
    { intros d (q0 & a & Hin & H). exists q0, a. split; [now right | exact H]. }
    unfold persist_quote in Hdb, Hnew |- *.
    destruct (List.find (has_fullname (author q)) (db_authors st)) as [a|] eqn:Ha.
    2:{ exists new. split; [exact Hdb|]. split; [|exact Hnd].
        eapply Forall_impl; [|exact Hnew]. simpl. intros d [H1 H2]. auto. }
    destruct (stored_text (quote q) st) eqn:Hq.
    + exists new. split; [exact Hdb|]. split; [|exact Hnd].
      eapply Forall_impl; [|exact Hnew]. simpl. intros d [H1 H2]. auto.
    + set (d0 := {| quote_id := db_next_id st; quote_tags := tags q;
                    quote_author := author_id a; quote_text := quote q |}).
      exists (d0 :: new).
      simpl in Hdb. rewrite <- app_assoc in Hdb. split; [exact Hdb|].
      assert (Hlater : forall d, In d new ->
                 stored_text (quote_text d)
                   (insert_quote (tags q) (author_id a) (quote q) st) = false).
      { intros d Hd. rewrite Forall_forall in Hnew. now apply Hnew. }
      split.
      * constructor.
        -- split; [exact Hq|]. exists q, a. split; [now left|].
           split; [exact Ha|]. now unfold quote_of.
        -- apply Forall_forall. intros d Hd. split.
           ++ destruct (stored_text (quote_text d) st) eqn:E; [|reflexivity].
              rewrite <- (Hlater d Hd). symmetry.
              apply stored_text_In. simpl. rewrite map_app. apply in_or_app.
              left. now apply stored_text_In.
           ++ rewrite Forall_forall in Hnew. apply Hweak. now apply Hnew.
      * simpl. constructor; [|exact Hnd].
        intros Hin. apply in_map_iff in Hin as (d & Hd & Hin).
        pose proof (Hlater d Hin) as Hf. rewrite Hd in Hf.
        assert (stored_text (quote q)
                  (insert_quote (tags q) (author_id a) (quote q) st) = true)
          as Ht.
        { apply stored_text_In. simpl. rewrite map_app. apply in_or_app.
          right. now left. }
        congruence.
Qed.

Lemma persistQuotes_NoDup (records : list quote_data) (st : store) :
  NoDup (map quote_text (db_quotes st)) ->
  NoDup (map quote_text (db_quotes (persistQuotes records st))).
Proof.
  intros Hst. destruct (persistQuotes_new records st) as (new & -> & Hnew & Hnd).
  rewrite map_app. apply NoDup_app_disjoint; auto.
  intros n Hn Hst'. apply in_map_iff in Hn as (a & <- & Ha).
  rewrite Forall_forall in Hnew. destruct (Hnew a Ha) as [Hf _].
  apply stored_text_In in Hst'. congruence.
Qed.

(** Insert-if-absent, run again on its own result, changes nothing. *)
Lemma persist_twice (authors_data : list author_data)
  (quotes_data : list quote_data) (st : store) :
  let st' := persistQuotes quotes_data (persistAuthors authors_data st) in
  persistQuotes quotes_data (persistAuthors authors_data st') = st'.
Proof.
  intros st'.
  assert (persistAuthors authors_data st' = st') as ->.
  { apply persistAuthors_settled. intros d Hd.
    unfold stored_fullname, st'. rewrite persistQuotes_authors.
    now apply persistAuthors_stored. }
  apply persistQuotes_settled. intros q Hq.
  destruct (List.find (has_fullname (author q)) (db_authors st')) eqn:E;
    [right|now left].
  unfold st' in *. apply persistQuotes_stored; [exact Hq|].
  rewrite persistQuotes_authors in E. congruence.
Qed.

(** *** A quote whose author is not stored *)

Lemma for_each_skip {A : Type} (body : A -> DB unit) (inv : store -> Prop)
  (x : A) :
  (forall y st, inv st -> inv (snd (body y st))) ->
  (forall st, inv st -> body x st = (Ok tt, st)) ->
  forall before after st,
    inv st ->
    for_each body (before ++ x :: after) st = for_each body (before ++ after) st.
Proof.
  intros Hinv Hskip before after.
  induction before as [|y before IH]; intros st Hst; simpl.
  - unfold bindDB. now rewrite (Hskip st Hst).
  - unfold bindDB. pose proof (Hinv y st Hst) as Hy.
    destruct (body y st) as [[[]|e] st']; [|reflexivity].
    now apply IH.
Qed.

Lemma main_quote_step_authors (m : models) (q : quote_data) (st : store) :
  db_authors
    (snd ((a <- Author_objects_first (author q) ;;
           match a with
           | Some a' => Quote_save m (tags q) a' (quote q)
           | None => ret tt
           end) st))
  = db_authors st.
Proof.
  unfold bindDB, Author_objects_first, Quote_save, ret.
  destruct (List.find _ _); [|reflexivity].
  now destruct (unique_quote m && _).
Qed.

Lemma main_skips_unresolved (m : models) (q : quote_data)
  (before after : list quote_data) (st : store) :
  List.find (has_fullname (author q)) (db_authors st) = None ->
  Main.upload_quotes_data m (before ++ q :: after) st
  = Main.upload_quotes_data m (before ++ after) st.
Proof.
  intros Hq. unfold Main.upload_quotes_data.
  apply for_each_skip
    with (inv := fun s => List.find (has_fullname (author q)) (db_authors s)
                          = None); [| |exact Hq].
  - intros y s Hs. cbv zeta. now rewrite main_quote_step_authors.
  - intros s Hs. cbv zeta. unfold bindDB, Author_objects_first, ret.
    now rewrite Hs.
Qed.

Lemma oop_skips_unresolved (m : models) (q : quote_data)
  (before after : list quote_data) (st : store) :
  List.find (has_fullname (author q)) (db_authors st) = None ->
  OopAsincio.upload_quotes_data m (before ++ q :: after) st
  = OopAsincio.upload_quotes_data m (before ++ after) st.
Proof.
  intros Hq. unfold OopAsincio.upload_quotes_data.
  apply for_each_skip
    with (inv := fun s => List.find (has_fullname (author q)) (db_authors s)
                          = None); [| |exact Hq].
  - intros y s Hs. cbv zeta. rewrite oop_quote_step. simpl.
    now rewrite persist_quote_authors.
  - intros s Hs. cbv zeta. rewrite oop_quote_step. unfold persist_quote.
    now rewrite Hs.
Qed.

Lemma motor_skips_unresolved (q : quote_data)
  (before after : list quote_data) (st : store) :
  List.find (has_fullname (author q)) (db_authors st) = None ->
  Motor.upload_quotes_data (before ++ q :: after) st
  = Motor.upload_quotes_data (before ++ after) st.
Proof.
  intros Hq. unfold Motor.upload_quotes_data.
  apply for_each_skip
    with (inv := fun s => List.find (has_fullname (author q)) (db_authors s)
                          = None); [| |exact Hq].
  - intros y s Hs. cbv zeta.
    unfold bindDB, Motor.find_one, Motor.insert_one, ret.
    now destruct (List.find (has_fullname (author y)) (db_authors s)).
  - intros s Hs. cbv zeta. unfold bindDB, Motor.find_one, ret. now rewrite Hs.
Qed.

(** C7.  In every script, a quote record whose author name matches no
    stored author when the quotes are uploaded is left out: the upload of
    a list that contains it behaves as the upload of the list without it,
    so the store gets nothing for it, nothing is raised for it and the
    records around it are processed as before. *)
Theorem unresolved_quote_is_skipped (m : models) (q : quote_data)
  (before after : list quote_data) (st : store) :
  List.find (has_fullname (author q)) (db_authors st) = None ->
  (Main.upload_quotes_data m (before ++ q :: after) st
   = Main.upload_quotes_data m (before ++ after) st /\
   MainAsincio.upload_quotes_data m (before ++ q :: after) st
   = MainAsincio.upload_quotes_data m (before ++ after) st /\
   MainOop.upload_quotes_data m (before ++ q :: after) st
   = MainOop.upload_quotes_data m (before ++ after) st /\
   OopAsincio.upload_quotes_data m (before ++ q :: after) st
   = OopAsincio.upload_quotes_data m (before ++ after) st /\
   Motor.upload_quotes_data (before ++ q :: after) st
   = Motor.upload_quotes_data (before ++ after) st) /\
  (Main.upload_quotes_data m [q] st = (Ok tt, st) /\
   MainAsincio.upload_quotes_data m [q] st = (Ok tt, st) /\
   MainOop.upload_quotes_data m [q] st = (Ok tt, st) /\
   OopAsincio.upload_quotes_data m [q] st = (Ok tt, st) /\
   Motor.upload_quotes_data [q] st = (Ok tt, st)).
Proof.
  intros Hq. split.
  - split; [now apply main_skips_unresolved|].
    split; [now apply main_skips_unresolved|].
    split; [now apply main_skips_unresolved|].
    split; [now apply oop_skips_unresolved | now apply motor_skips_unresolved].
  - split; [exact (main_skips_unresolved m q [] [] st Hq)|].
    split; [exact (main_skips_unresolved m q [] [] st Hq)|].
    split; [exact (main_skips_unresolved m q [] [] st Hq)|].
    split; [exact (oop_skips_unresolved m q [] [] st Hq)|].
    exact (motor_skips_unresolved q [] [] st Hq).
Qed.

Lemma unresolved_quote_is_skipped_witness :
  List.find (has_fullname (author orphan_quote)) (db_authors einstein_store)
  = None /\
  Main.upload_quotes_data no_index [orphan_quote; world_quote] einstein_store
  = Main.upload_quotes_data no_index [world_quote] einstein_store /\
  OopAsincio.upload_quotes_data no_index [orphan_quote] einstein_store
  = (Ok tt, einstein_store).
Proof.
  split; [reflexivity|].
  destruct (@unresolved_quote_is_skipped no_index orphan_quote []
              [world_quote] einstein_store eq_refl) as [[H _] _].
  destruct (@unresolved_quote_is_skipped no_index orphan_quote [] []
              einstein_store eq_refl) as [_ (_ & _ & _ & H' & _)].
  split; [exact H | exact H'].
Defined.

(** *** Authors *)

(** X16.  In [main_oop_asincio.py], for every list of author records and
    every store, [upload_author_data] ends normally, inserts a record only
    when no stored author has its fullname and otherwise skips it: the
    stored authors stay as they are, in place, the quotes are untouched,
    and the added authors have names that were not stored, no two of them
    the same.  Where [models.py] declares no unique index on the fullname,
    [main.py], [main_asincio.py] and [main_oop.py] instead insert every
    record, as [main_asincio_motor.py] does with every record of a
    non-empty list. *)
Theorem authors_inserted_if_absent (m : models)
  (authors_data : list author_data) (st : store) :
  OopAsincio.upload_author_data m authors_data st
  = (Ok tt, persistAuthors authors_data st) /\
  (forall d,
      stored_fullname (fullname d) st = true ->
      OopAsincio.upload_author_data m [d] st = (Ok tt, st)) /\
  (forall d,
      stored_fullname (fullname d) st = false ->
      OopAsincio.upload_author_data m [d] st = (Ok tt, insert_author d st)) /\
  (exists new,
      db_authors (persistAuthors authors_data st) = db_authors st ++ new /\
      Forall (fun a => stored_fullname (stored_name a) st = false /\
                       In (author_fields a) authors_data) new /\
      NoDup (map stored_name new)) /\
  db_quotes (persistAuthors authors_data st) = db_quotes st /\
  (unique_fullname m = false ->
   Main.upload_author_data m authors_data st
   = (Ok tt, insert_authors authors_data st) /\
   MainAsincio.upload_author_data m authors_data st
   = (Ok tt, insert_authors authors_data st) /\
   MainOop.upload_author_data m authors_data st
   = (Ok tt, insert_authors authors_data st)) /\
  (authors_data <> [] ->
   Motor.upload_author_data authors_data st
   = (Ok tt, insert_authors authors_data st)).
Proof.
  split; [apply oop_upload_authors|].
  split.
  { intros d Hd. rewrite oop_upload_authors. unfold persistAuthors. simpl.
    unfold persist_author. now rewrite Hd. }
  split.
  { intros d Hd. rewrite oop_upload_authors. unfold persistAuthors. simpl.
    unfold persist_author. now rewrite Hd. }
  split; [apply persistAuthors_new|].
  split; [apply persistAuthors_quotes|].
  split.
  - intros Hm. repeat split; now apply main_upload_authors.
  - apply motor_upload_authors.
Qed.

Lemma authors_inserted_if_absent_witness :
  map stored_name
      (db_authors
         (snd (OopAsincio.upload_author_data unique_index [einstein; rowling]
                 einstein_store)))
  = ["Albert Einstein"; "J.K. Rowling"].
Proof.
  rewrite (proj1 (authors_inserted_if_absent unique_index [einstein; rowling]
                    einstein_store)).
  reflexivity.
Defined.

(** C1.  [upload_author_data] is to insert a record only when no stored
    author has its fullname and to skip it otherwise, as it does in
    [main_oop_asincio.py].  In [main.py] and [main_asincio_motor.py] the
    lookup is missing: with Einstein stored, uploading Einstein and
    Rowling stores Einstein a second time in [main.py] without a unique
    index and in [main_asincio_motor.py]; with a unique index [main.py]
    raises at Einstein and never reaches Rowling.  In no case is the
    record skipped and the next one stored. *)
Lemma authors_saved_without_lookup :
  stored_fullname (fullname einstein) einstein_store = true /\
  map stored_name
      (db_authors
         (snd (Main.upload_author_data no_index [einstein; rowling]
                 einstein_store)))
  = ["Albert Einstein"; "Albert Einstein"; "J.K. Rowling"] /\
  Main.upload_author_data unique_index [einstein; rowling] einstein_store
  = (Raise NotUniqueError, einstein_store) /\
  map stored_name
      (db_authors
         (snd (Motor.upload_author_data [einstein; rowling] einstein_store)))
  = ["Albert Einstein"; "Albert Einstein"; "J.K. Rowling"] /\
  (forall m,
      Main.upload_author_data m [einstein; rowling] einstein_store
      <> (Ok tt, persistAuthors [einstein; rowling] einstein_store)) /\
  Motor.upload_author_data [einstein; rowling] einstein_store
  <> (Ok tt, persistAuthors [einstein; rowling] einstein_store).
Proof.
  repeat split; try reflexivity.
  - intros [[] uq]; vm_compute; discriminate.
  - vm_compute; discriminate.
Qed.

(** *** Quotes *)

Lemma main_quote_fresh (m : models) (q : quote_data) (a : author_doc)
  (st : store) :
  List.find (has_fullname (author q)) (db_authors st) = Some a ->
  stored_text (quote q) st = false ->
  Main.upload_quotes_data m [q] st
  = (Ok tt, insert_quote (tags q) (author_id a) (quote q) st).
Proof.
  intros Ha Hq. unfold Main.upload_quotes_data. simpl.
  unfold bindDB, Author_objects_first, Quote_save, ret. rewrite Ha.
  unfold stored_text in Hq. now rewrite Hq, andb_false_r.
Qed.

(** X17.  Every script resolves the author name of a quote by a lookup
    in the store and keeps the identity of the first stored author of that
    name: a quote whose author is stored and whose text is not is inserted
    with that identity by all five.  In [main_oop_asincio.py],
    [upload_quotes_data] ends normally on every input, inserts a quote only
    when its author is stored and no stored quote has its text, and
    otherwise skips it, the stored quotes staying as they are and the
    authors untouched.  Where [models.py] declares no unique index on the
    quote text, [main.py], [main_asincio.py] and [main_oop.py] insert every
    quote whose author is stored, as [main_asincio_motor.py] always does. *)
Theorem quotes_resolved_against_store (m : models)
  (quotes_data : list quote_data) (st : store) :
  OopAsincio.upload_quotes_data m quotes_data st
  = (Ok tt, persistQuotes quotes_data st) /\
  (exists new,
      db_quotes (persistQuotes quotes_data st) = db_quotes st ++ new /\
      Forall (fun d =>
                stored_text (quote_text d) st = false /\
                exists q a,
                  In q quotes_data /\
                  List.find (has_fullname (author q)) (db_authors st) = Some a /\
                  quote_of q a d) new /\
      NoDup (map quote_text new)) /\
  db_authors (persistQuotes quotes_data st) = db_authors st /\
  (forall q,
      stored_text (quote q) st = true ->
      OopAsincio.upload_quotes_data m [q] st = (Ok tt, st)) /\
  (forall q a,
      List.find (has_fullname (author q)) (db_authors st) = Some a ->
      stored_text (quote q) st = false ->
      OopAsincio.upload_quotes_data m [q] st
      = (Ok tt, insert_quote (tags q) (author_id a) (quote q) st) /\
      Main.upload_quotes_data m [q] st
      = (Ok tt, insert_quote (tags q) (author_id a) (quote q) st) /\
      MainAsincio.upload_quotes_data m [q] st
      = (Ok tt, insert_quote (tags q) (author_id a) (quote q) st) /\
      MainOop.upload_quotes_data m [q] st
      = (Ok tt, insert_quote (tags q) (author_id a) (quote q) st) /\
      Motor.upload_quotes_data [q] st
      = (Ok tt, insert_quote (tags q) (author_id a) (quote q) st)) /\
  (unique_quote m = false ->
   Main.upload_quotes_data m quotes_data st
   = (Ok tt, insert_quotes quotes_data st) /\
   MainAsincio.upload_quotes_data m quotes_data st
   = (Ok tt, insert_quotes quotes_data st) /\
   MainOop.upload_quotes_data m quotes_data st
   = (Ok tt, insert_quotes quotes_data st)) /\
  Motor.upload_quotes_data quotes_data st
  = (Ok tt, insert_quotes quotes_data st).
Proof.
  split; [apply oop_upload_quotes|].
  split; [apply persistQuotes_new|].
  split; [apply persistQuotes_authors|].
  split.
  { intros q Hq. rewrite oop_upload_quotes. unfold persistQuotes. simpl.
    unfold persist_quote. rewrite Hq. now destruct (List.find _ _). }
  split.
  { intros q a Ha Hq. split.
    - rewrite oop_upload_quotes. unfold persistQuotes. simpl.
      unfold persist_quote. now rewrite Ha, Hq.
    - split; [now apply main_quote_fresh|].
      split; [now apply main_quote_fresh|].
      split; [now apply main_quote_fresh|].
      rewrite motor_upload_quotes. unfold insert_quotes. simpl.
      unfold insert_resolved. now rewrite Ha. }
  split.
  - intros Hm. repeat split; now apply main_upload_quotes.
  - apply motor_upload_quotes.
Qed.

Lemma quotes_resolved_against_store_witness :
  OopAsincio.upload_quotes_data unique_index [world_quote; orphan_quote]
                                einstein_store
  = (Ok tt, einstein_store).
Proof.
  rewrite (proj1 (quotes_resolved_against_store unique_index
                    [world_quote; orphan_quote] einstein_store)).
  reflexivity.
Defined.

(** C2.  [upload_quotes_data] is to insert a quote only when no stored
    quote has its text and to skip it otherwise, as it does in
    [main_oop_asincio.py].  In [main.py] and [main_asincio_motor.py] the
    lookup of the text is missing: with the quote already stored, [main.py]
    without a unique index and [main_asincio_motor.py] store it a second
    time, and [main.py] with a unique index raises; none of them skips
    it. *)
Lemma quotes_saved_without_lookup :
  stored_text (quote world_quote) einstein_store = true /\
  map quote_text
      (db_quotes
         (snd (Main.upload_quotes_data no_index [world_quote] einstein_store)))
  = [quote world_quote; quote world_quote] /\
  Main.upload_quotes_data unique_index [world_quote] einstein_store
  = (Raise NotUniqueError, einstein_store) /\
  map quote_text
      (db_quotes (snd (Motor.upload_quotes_data [world_quote] einstein_store)))
  = [quote world_quote; quote world_quote] /\
  (forall m,
      Main.upload_quotes_data m [world_quote] einstein_store
      <> (Ok tt, einstein_store)) /\
  Motor.upload_quotes_data [world_quote] einstein_store
  <> (Ok tt, einstein_store).
Proof.
  repeat split; try reflexivity.
  - intros [uf []]; vm_compute; discriminate.
  - vm_compute; discriminate.
Qed.

(** ** The whole run *)

Lemma run_some (scraped : option (result (list author_data * list quote_data)))
  (up_a : list author_data -> DB unit) (up_q : list quote_data -> DB unit) :
  (exists r, scraped = Some r) -> exists run', run scraped up_a up_q = Some run'.
Proof. intros (r & ->). simpl. eauto. Qed.

Lemma scrape_some (fuel : nat) (w : web) (base : string)
  (hrefs : list string) :
  truthy base = true ->
  next_chain w base base hrefs ->
  List.length hrefs < fuel ->
  (exists r, scrape fuel w base = Some r) /\
  (exists r, scrape_motor fuel w base = Some r).
Proof.
  intros Hb Hc Hf. unfold scrape, scrape_motor.
  rewrite (get_pages_chain Hb Hc Hf). eauto.
Qed.

Lemma oop_run (fuel : nat) (w : web) (base : string) (m : models)
  (run' : DB unit) :
  main_oop_asincio fuel w base m = Some run' ->
  exists r,
    scrape fuel w base = Some r /\
    forall st,
      run' st = match r with
                | Ok data =>
                    (Ok tt, persistQuotes (snd data)
                                          (persistAuthors (fst data) st))
                | Raise e => (Raise e, st)
                end.
Proof.
  unfold main_oop_asincio, run.
  destruct (scrape fuel w base) as [r|]; [|discriminate].
  intros [= <-]. exists r. split; [reflexivity|]. intros st.
  unfold bindDB, lift. destruct r as [data|e]; [|reflexivity].
  now rewrite oop_upload_authors, oop_upload_quotes.
Qed.

(** X18.  A run of [main_oop_asincio.py] exists whenever the chain of
    next links is finite.  Run again on the store it left, with the same
    pages, it leaves that store as it is and ends the same way; and a
    store without two authors of one fullname or two quotes of one text is
    still so after a run. *)
Theorem oop_asincio_run_twice (fuel : nat) (w : web) (base : string)
  (m : models) :
  (forall hrefs,
      truthy base = true ->
      next_chain w base base hrefs ->
      List.length hrefs < fuel ->
      exists run', main_oop_asincio fuel w base m = Some run') /\
  (forall run',
      main_oop_asincio fuel w base m = Some run' ->
      forall st,
        run' (snd (run' st)) = run' st /\
        (NoDup (map stored_name (db_authors st)) ->
         NoDup (map stored_name (db_authors (snd (run' st))))) /\
        (NoDup (map quote_text (db_quotes st)) ->
         NoDup (map quote_text (db_quotes (snd (run' st)))))).
Proof.
  split.
  - intros hrefs Hb Hc Hf. apply run_some.
    now destruct (scrape_some Hb Hc Hf).
  - intros run' Hrun st. apply oop_run in Hrun as (r & _ & Hrun).
    rewrite !Hrun. destruct r as [data|e]; simpl; [|auto].
    split; [now rewrite persist_twice|]. split.
    + intros H. rewrite persistQuotes_authors. now apply persistAuthors_NoDup.
    + intros H. apply persistQuotes_NoDup. now rewrite persistAuthors_quotes.
Qed.

Lemma oop_asincio_run_twice_witness :
  exists run',
    main_oop_asincio 3 site "http://quotes" unique_index = Some run' /\
    map stored_name (db_authors (snd (run' empty_store)))
    = ["Albert Einstein"; "J.K. Rowling"] /\
    List.length (db_quotes (snd (run' empty_store))) = 3 /\
    run' (snd (run' empty_store)) = run' empty_store.
Proof.
  eexists. split; [reflexivity|]. split; [reflexivity|].
  split; [reflexivity|].
  apply (proj2 (oop_asincio_run_twice 3 site "http://quotes" unique_index)).
  reflexivity.
Defined.

(** C3.  A second run over the same pages is to leave the store as the
    first run left it, as it does in [main_oop_asincio.py].  The missing
    lookups of C1 and C2 break this elsewhere: on the example site, a
    second run of [main.py] without a unique index, or of
    [main_asincio_motor.py], stores every author and every quote a second
    time; with a unique index the second run of [main.py] raises instead
    of ending normally. *)
Lemma second_run_duplicates :
  (exists run',
      main 3 site "http://quotes" no_index = Some run' /\
      map stored_name (db_authors (snd (run' empty_store)))
      = ["Albert Einstein"; "J.K. Rowling"] /\
      map stored_name (db_authors (snd (run' (snd (run' empty_store)))))
      = ["Albert Einstein"; "J.K. Rowling"; "Albert Einstein"; "J.K. Rowling"] /\
      List.length (db_quotes (snd (run' empty_store))) = 3 /\
      List.length (db_quotes (snd (run' (snd (run' empty_store))))) = 6) /\
  (exists run',
      main_asincio_motor 3 site "http://quotes" = Some run' /\
      List.length (db_authors (snd (run' empty_store))) = 2 /\
      List.length (db_authors (snd (run' (snd (run' empty_store))))) = 4 /\
      List.length (db_quotes (snd (run' empty_store))) = 3 /\
      List.length (db_quotes (snd (run' (snd (run' empty_store))))) = 6) /\
  (exists run',
      main 3 site "http://quotes" unique_index = Some run' /\
      fst (run' empty_store) = Ok tt /\
      fst (run' (snd (run' empty_store))) = Raise NotUniqueError).
Proof.
  split; [|split]; eexists; (split; [reflexivity|]); repeat split;
    vm_compute; reflexivity.
Qed.

(** ** The five scripts side by side *)

Lemma parse_quotes_from_gather (w : web) (links : list string) :
  forall acc out,
    parse_quotes_from w links acc = Ok out <->
    exists soups,
      Motor.gather w links = Ok soups /\
      Motor.quotes_of_soups soups acc = Ok out.
Proof.
  induction links as [|url rest IH]; intros acc out; simpl.
  - split.
    + intros [= <-]. exists []. auto.
    + now intros (soups & [= <-] & H).
  - split.
    + intros H. apply bind_ok in H as (soup & Hs & H).
      apply bind_ok in H as (acc' & Hq & H).
      apply IH in H as (soups & Hg & H).
      exists (soup :: soups). rewrite Hs, Hg. simpl. now rewrite Hq.
    + intros (soups & Hg & H).
      apply bind_ok in Hg as (soup & Hs & Hg).
      apply bind_ok in Hg as (soups' & Hg & [= <-]).
      simpl in H. apply bind_ok in H as (acc' & Hq & H).
      rewrite Hs. simpl. rewrite Hq. simpl. apply IH. eauto.
Qed.

Lemma parse_quotes_motor (w : web) (links : list string)
  (out : list quote_data) :
  parse_quotes w links = Ok out <-> Motor.parse_quotes w links = Ok out.
Proof.
  unfold parse_quotes, Motor.parse_quotes.
  rewrite parse_quotes_from_gather, bind_ok. reflexivity.
Qed.

Lemma parse_authors_motor (w : web) (author_links : list author_link)
  (out : list author_data) :
  parse_authors w author_links = Ok out <->
  Motor.parse_authors w author_links = Ok out.
Proof. now rewrite parse_authors_ok, motor_parse_authors_ok. Qed.

Lemma scrape_motor_ok (fuel : nat) (w : web) (base : string)
  (data : list author_data * list quote_data) :
  scrape fuel w base = Some (Ok data) <->
  scrape_motor fuel w base = Some (Ok data).
Proof.
  unfold scrape, scrape_motor.
  destruct (get_pages fuel w base) as [[pages|e]|]; simpl;
    [|split; discriminate|reflexivity].
  destruct (get_authors_info w base pages) as [author_links|e]; simpl;
    [|split; discriminate].
  split; intros [= H]; f_equal.
  - apply bind_ok in H as (a & Ha & H). apply bind_ok in H as (q & Hq & H).
    apply parse_authors_motor in Ha. apply parse_quotes_motor in Hq.
    rewrite Ha. simpl. now rewrite Hq.
  - apply bind_ok in H as (a & Ha & H). apply bind_ok in H as (q & Hq & H).
    apply parse_authors_motor in Ha. apply parse_quotes_motor in Hq.
    rewrite Ha. simpl. now rewrite Hq.
Qed.

(** *** Uploads to a store that holds none of the data *)

Lemma stored_fullname_insert (d : author_data) (name : string) (st : store) :
  stored_fullname name (insert_author d st)
  = stored_fullname name st || String.eqb (fullname d) name.
Proof.
  unfold stored_fullname. simpl. rewrite existsb_app. simpl.
  now rewrite orb_false_r.
Qed.









(** * Further properties *)

(** ** [get_pages]: what a returned list is, and when none is returned *)

Lemma get_pages_loop_sound (w : web) (base : string) :
  truthy base = true ->
  forall fuel links url out,
    truthy url = true ->
    get_pages_loop fuel w base links (Some url) = Some (Ok out) ->
    exists hrefs,
      out = links ++ map (String.append base) hrefs /\
      next_chain w base url hrefs /\
      List.length hrefs < fuel.
Proof.
  intros Hbase. induction fuel as [|fuel IH]; intros links url out Hurl; simpl;
    rewrite Hurl; [discriminate|].
  unfold get_soup. destruct (w url) as [soup|] eqn:Hw; [|discriminate].
  destruct (find "li" (Some "next") soup) as [li|] eqn:Hli.
  - destruct (find "a" None li) as [a|] eqn:Ha; [|discriminate].
    intros H. apply IH in H as (hrefs & -> & Hc & Hlen);
      [|now apply truthy_append].
    exists (attrs_get (attrs a) "href" EmptyString :: hrefs).
    split; [simpl; now rewrite <- app_assoc|].
    split; [now apply chain_step with soup li | simpl; lia].
  - intros H. assert (out = links) as ->.
    { destruct fuel; simpl in H; congruence. }
    exists []. split; [now rewrite app_nil_r|].
    split; [now apply chain_end with soup | simpl; lia].
Qed.

Lemma next_chain_unique (w : web) (base url : string)
  (hrefs hrefs' : list string) :
  next_chain w base url hrefs -> next_chain w base url hrefs' ->
  hrefs = hrefs'.
Proof.
  intros H. revert hrefs'.
  induction H as [url soup Hw Hn | url soup li a hrefs Hw Hli Ha _ IH];
    intros hrefs' H'; inversion H'; subst; try congruence.
  assert (soup0 = soup) as -> by congruence.
  assert (li0 = li) as -> by congruence.
  assert (a0 = a) as -> by congruence.
  f_equal. now apply IH.
Qed.

(** X1.  Whatever list [get_pages] returns from a non-empty seed is the
    seed followed by the URLs of a real chain of next links, each the seed
    with one link appended; the last page of that chain has no next link,
    and any larger fuel returns the same list. *)
Theorem get_pages_returns_a_chain (fuel : nat) (w : web) (base : string)
  (links : list string) :
  truthy base = true ->
  get_pages fuel w base = Some (Ok links) ->
  exists hrefs,
    links = base :: map (String.append base) hrefs /\
    next_chain w base base hrefs /\
    List.length hrefs < fuel /\
    (forall fuel', List.length hrefs < fuel' ->
                   get_pages fuel' w base = Some (Ok links)) /\
    (forall hrefs', next_chain w base base hrefs' -> hrefs' = hrefs).
Proof.
  intros Hbase H. unfold get_pages in H.
  apply get_pages_loop_sound in H as (hrefs & -> & Hc & Hlen); auto.
  exists hrefs. split; [reflexivity|]. split; [exact Hc|].
  split; [exact Hlen|]. split.
  - intros fuel' Hf. now apply get_pages_chain.
  - intros hrefs' Hc'. now apply (next_chain_unique Hc').
Qed.

Lemma get_pages_returns_a_chain_witness :
  exists hrefs,
    ["http://quotes"; "http://quotes/page/2/"; "http://quotes/page/3/"]
    = "http://quotes" :: map (String.append "http://quotes") hrefs /\
    next_chain three_pages "http://quotes" "http://quotes" hrefs.
Proof.
  destruct (@get_pages_returns_a_chain 5 three_pages "http://quotes" _
              eq_refl eq_refl) as (hrefs & H1 & H2 & _).
  exists hrefs. split; [exact H1 | exact H2].
Defined.

(** *** Chains that never end *)

Lemma walk_add (w : web) (base : string) (a b : nat) :
  forall url,
    walk w base (a + b) url
    = match walk w base a url with
      | Some url' => walk w base b url'
      | None => None
      end.
Proof.
  induction a as [|a IH]; intros url; simpl; [reflexivity|].
  destruct (next_url w base url); [apply IH | reflexivity].
Qed.

Lemma walk_cycle_endless (w : web) (base url : string) (k : nat) :
  0 < k ->
  walk w base k url = Some url ->
  forall j, exists url', walk w base j url = Some url'.
Proof.
  intros Hk Hcycle j. induction j as [j IH] using lt_wf_ind.
  destruct (Nat.lt_ge_cases j k) as [Hlt|Hge].
  - replace k with (j + (k - j)) in Hcycle by lia.
    rewrite walk_add in Hcycle.
    destruct (walk w base j url); [eauto | discriminate].
  - replace j with (k + (j - k)) by lia.
    rewrite walk_add, Hcycle. apply IH. lia.
Qed.

Lemma get_pages_loop_endless (w : web) (base : string) :
  truthy base = true ->
  forall fuel links url,
    truthy url = true ->
    (forall j, exists url', walk w base j url = Some url') ->
    get_pages_loop fuel w base links (Some url) = None.
Proof.
  intros Hbase. induction fuel as [|fuel IH]; intros links url Hurl Hend; simpl;
    rewrite Hurl; [reflexivity|].
  destruct (Hend 1) as (url1 & H1). simpl in H1.
  unfold next_url in H1. unfold get_soup.
  destruct (w url) as [soup|] eqn:Hw; [|discriminate].
  destruct (find "li" (Some "next") soup) as [li|] eqn:Hli; [|discriminate].
  destruct (find "a" None li) as [a|] eqn:Ha; [|discriminate].
  apply IH; [now apply truthy_append|].
  intros j. destruct (Hend (S j)) as (url' & Hj). simpl in Hj.
  unfold next_url in Hj. rewrite Hw, Hli, Ha in Hj. eauto.
Qed.

(** X2.  When the next links from a non-empty seed lead, after any number
    of pages, into a cycle, [get_pages] never returns: it is still
    running when any amount of fuel is spent.  An anchor without [href] is
    such a cycle, as the link read from it is empty and leads back to the
    seed. *)
Theorem get_pages_never_leaves_a_cycle (w : web) (base url : string)
  (n k : nat) :
  truthy base = true ->
  walk w base n base = Some url ->
  0 < k ->
  walk w base k url = Some url ->
  forall fuel, get_pages fuel w base = None.
Proof.
  intros Hbase Hreach Hk Hcycle fuel. unfold get_pages.
  apply get_pages_loop_endless; auto.
  intros j. destruct (Nat.lt_ge_cases j n) as [Hlt|Hge].
  - replace n with (j + (n - j)) in Hreach by lia.
    rewrite walk_add in Hreach.
    destruct (walk w base j base); [eauto | discriminate].
  - replace j with (n + (j - n)) by lia. rewrite walk_add, Hreach.
    now apply walk_cycle_endless with k.
Qed.

Lemma get_pages_never_leaves_a_cycle_witness :
  (forall fuel, get_pages fuel two_page_cycle "http://quotes" = None) /\
  (forall fuel, get_pages fuel (only_page no_href_page) "http://quotes" = None).
Proof.
  split.
  - apply (@get_pages_never_leaves_a_cycle two_page_cycle "http://quotes"
             "http://quotes" 0 2); [reflexivity | reflexivity | lia | reflexivity].
  - apply (@get_pages_never_leaves_a_cycle (only_page no_href_page)
             "http://quotes" "http://quotes" 0 1);
      [reflexivity | reflexivity | lia | reflexivity].
Defined.

(** *** Chains that break *)

Lemma get_pages_loop_walk (w : web) (base : string) :
  truthy base = true ->
  forall k fuel links url url',
    truthy url = true ->
    walk w base k url = Some url' ->
    exists links',
      truthy url' = true /\
      get_pages_loop (k + fuel) w base links (Some url)
      = get_pages_loop fuel w base links' (Some url').
Proof.
  intros Hbase. induction k as [|k IH]; intros fuel links url url' Hurl; simpl.
  - intros [= <-]. exists links. auto.
  - rewrite Hurl. unfold next_url, get_soup.
    destruct (w url) as [soup|]; [|discriminate].
    destruct (find "li" (Some "next") soup) as [li|]; [|discriminate].
    destruct (find "a" None li) as [a|]; [|discriminate].
    intros H. apply IH; [now apply truthy_append | exact H].
Qed.

(** X3.  [get_pages] returns no partial list.  When the chain from a
    non-empty seed reaches a page that cannot be fetched, the whole call
    raises the connection error; when it reaches a page whose next item
    has no anchor, the whole call raises the attribute error. *)
Theorem get_pages_raises_on_a_broken_chain (w : web) (base url : string)
  (k fuel : nat) :
  truthy base = true ->
  walk w base k base = Some url ->
  k < fuel ->
  (w url = None -> get_pages fuel w base = Some (Raise ConnectionError)) /\
  (forall soup li,
      w url = Some soup ->
      find "li" (Some "next") soup = Some li ->
      find "a" None li = None ->
      get_pages fuel w base = Some (Raise AttributeError)).
Proof.
  intros Hbase Hwalk Hfuel. unfold get_pages.
  destruct (@get_pages_loop_walk w base Hbase k (fuel - k) [base] base url
              Hbase Hwalk) as (links' & Hurl & Heq).
  replace (k + (fuel - k)) with fuel in Heq by lia. rewrite Heq.
  destruct (fuel - k) as [|rest] eqn:E; [lia|].
  split.
  - intros Hw. simpl. rewrite Hurl. unfold get_soup. now rewrite Hw.
  - intros soup li Hw Hli Ha. simpl. rewrite Hurl. unfold get_soup.
    now rewrite Hw, Hli, Ha.
Qed.

Lemma get_pages_raises_on_a_broken_chain_witness :
  get_pages 2 broken_site "http://quotes" = Some (Raise ConnectionError) /\
  get_pages 2 no_anchor_site "http://quotes" = Some (Raise AttributeError).
Proof.
  split.
  - apply (proj1 (@get_pages_raises_on_a_broken_chain broken_site
                    "http://quotes" "http://quotes/page/2/" 1 2
                    eq_refl eq_refl (le_n 2))).
    reflexivity.
  - apply (proj2 (@get_pages_raises_on_a_broken_chain no_anchor_site
                    "http://quotes" "http://quotes/page/2/" 1 2
                    eq_refl eq_refl (le_n 2))
             no_anchor_page (Tag "li" ["next"] [] [NavigableString "Next"]));
      reflexivity.
Defined.

(** ** [get_authors_info]: what holds of every returned list *)

Lemma authors_loop_names (base_url : string) (qs : list node)
  (authors : list node) :
  forall el seen out,
    authors_loop base_url qs el authors seen = Ok out ->
    (NoDup (map author_name seen) -> NoDup (map author_name out)) /\
    (forall n, In n (map author_name out) <->
               In n (map author_name seen) \/ In n (map text authors)).
Proof.
  induction authors as [|a rest IH]; intros el seen out; simpl.
  - intros [= <-]. split; [auto|]. intros n. tauto.
  - destruct (author_found seen (text a)) eqn:Hf.
    + intros H. apply IH in H as [Hnd Hin]. split; [exact Hnd|].
      intros n. rewrite Hin. apply author_found_In in Hf.
      split; [tauto|]. intros [H|[<-|H]]; auto.
    + destruct (nth_error qs el) as [q|]; [|discriminate].
      destruct (find "a" (Some EmptyString) q) as [lnk|]; simpl;
        [|discriminate].
      intros H. apply IH in H as [Hnd Hin]. split.
      * intros Hs. apply Hnd. rewrite map_app. simpl.
        apply NoDup_app_disjoint; [exact Hs | repeat constructor; auto|].
        intros n [<-|[]] Hn. apply author_found_In in Hn. congruence.
      * intros n. rewrite Hin, map_app, in_app_iff. simpl. tauto.
Qed.

Lemma get_authors_info_from_names (w : web) (base_url : string)
  (urls : list string) :
  forall seen out,
    get_authors_info_from w base_url urls seen = Ok out ->
    (NoDup (map author_name seen) -> NoDup (map author_name out)) /\
    (forall n, In n (map author_name out) <->
               In n (map author_name seen) \/ named_on w urls n) /\
    (forall url, In url urls -> w url <> None).
Proof.
  induction urls as [|url rest IH]; intros seen out; simpl.
  - intros [= <-]. split; [auto|]. split; [|contradiction].
    intros n. split; [auto|]. intros [H|(u & s & a & [] & _)]. exact H.
  - intros H. apply bind_ok in H as (soup & Hs & H).
    apply bind_ok in H as (seen' & Hl & H).
    apply get_soup_ok in Hs.
    apply authors_loop_names in Hl as [Hnd1 Hin1].
    apply IH in H as (Hnd2 & Hin2 & Hf). split; [auto|]. split.
    + intros n. rewrite Hin2, Hin1. split.
      * intros [[H|H]|(u & s & a & Hu & Hw & Ha & Ht)].
        -- now left.
        -- right. apply in_map_iff in H as (a & Ht & Ha).
           exists url, soup, a. repeat split; auto. now left.
        -- right. exists u, s, a. repeat split; auto. now right.
      * intros [H|(u & s & a & [<-|Hu] & Hw & Ha & Ht)].
        -- auto.
        -- left. right. assert (s = soup) as -> by congruence.
           rewrite <- Ht. now apply in_map.
        -- right. exists u, s, a. auto.
    + intros u [<-|Hu]; [congruence | now apply Hf].
Qed.

Lemma get_authors_info_from_urls (w : web) (base_url : string)
  (urls : list string) :
  forall seen out,
    get_authors_info_from w base_url urls seen = Ok out ->
    forall r, In r out ->
              In r seen \/
              exists href, author_info_url r = (base_url ++ href)%string.
Proof.
  induction urls as [|url rest IH]; intros seen out; simpl.
  - intros [= <-] r Hr. now left.
  - intros H. apply bind_ok in H as (soup & Hs & H).
    apply bind_ok in H as (seen' & Hl & H).
    intros r Hr. destruct (IH _ _ H r Hr) as [Hin|Hin]; [|now right].
    destruct (authors_loop_pairs _ _ _ _ _ Hl r Hin)
      as [Hin'|(i & a & q & lnk & _ & _ & _ & ->)]; [now left|].
    right. simpl. eauto.
Qed.

(** X4.  Whenever [get_authors_info] returns a list, no name occurs in it
    twice, its names are exactly the texts of the author-name elements of
    the crawled pages, every URL in it starts with the base URL, and every
    page was fetched; this holds even when a repeated name sits where its
    link could not have been read. *)
Theorem get_authors_info_result (w : web) (base_url : string)
  (urls : list string) (out : list author_link) :
  get_authors_info w base_url urls = Ok out ->
  NoDup (map author_name out) /\
  (forall n, In n (map author_name out) <-> named_on w urls n) /\
  (forall r, In r out ->
             exists href, author_info_url r = (base_url ++ href)%string) /\
  (forall url, In url urls -> w url <> None).
Proof.
  intros H. unfold get_authors_info in H.
  pose proof (get_authors_info_from_names _ _ _ _ H) as (Hnd & Hin & Hf).
  split; [apply Hnd; constructor|]. split.
  - intros n. rewrite Hin. simpl. tauto.
  - split; [|exact Hf]. intros r Hr.
    destruct (get_authors_info_from_urls _ _ _ _ H r Hr) as [[]|Hh]. exact Hh.
Qed.

Lemma get_authors_info_result_witness :
  NoDup (map author_name
             [ {| author_name := "Albert Einstein";
                  author_info_url := "http://quotes/author/Albert-Einstein" |} ]) /\
  named_on (only_page repeated_name_page) ["http://quotes"] "Albert Einstein".
Proof.
  destruct (@get_authors_info_result (only_page repeated_name_page)
              "http://quotes" ["http://quotes"] _ eq_refl)
    as (Hnd & Hin & _).
  split; [exact Hnd|]. apply Hin. now left.
Defined.

(** ** [parse_quotes]: one record per quote element *)

Lemma quotes_loop_ok (els : list node) :
  forall acc out,
    quotes_loop els acc = Ok out <->
    exists recs,
      out = acc ++ recs /\
      Forall2 (fun el r => parse_quote el = Ok r) els recs.
Proof.
  induction els as [|el rest IH]; intros acc out; simpl.
  - split.
    + intros [= <-]. exists []. rewrite app_nil_r. auto.
    + intros (recs & -> & H). inversion H. now rewrite app_nil_r.
  - split.
    + intros H. apply bind_ok in H as (r & Hr & H).
      apply IH in H as (recs & -> & HF).
      exists (r :: recs). rewrite <- app_assoc. auto.
    + intros (recs & -> & HF). inversion HF as [|? r ? recs' Hr HF']; subst.
      rewrite Hr. simpl. apply IH. exists recs'. rewrite <- app_assoc. auto.
Qed.

Lemma parse_quotes_from_ok (w : web) (links : list string) :
  forall acc out,
    parse_quotes_from w links acc = Ok out <->
    exists soups recs,
      fetched w links soups /\
      out = acc ++ recs /\
      Forall2 (fun el r => parse_quote el = Ok r) (quote_elements soups) recs.
Proof.
  unfold fetched, quote_elements.
  induction links as [|url rest IH]; intros acc out; simpl.
  - split.
    + intros [= <-]. exists [], []. rewrite app_nil_r.
      repeat split; constructor.
    + intros (soups & recs & Hf & -> & H). inversion Hf; subst.
      inversion H. now rewrite app_nil_r.
  - split.
    + intros H. apply bind_ok in H as (soup & Hs & H).
      apply bind_ok in H as (acc' & Hq & H).
      apply get_soup_ok in Hs.
      apply quotes_loop_ok in Hq as (recs1 & -> & H1).
      apply IH in H as (soups & recs2 & Hf & -> & H2).
      exists (soup :: soups), (recs1 ++ recs2).
      split; [now constructor|]. split; [now rewrite app_assoc|].
      simpl. now apply Forall2_app.
    + intros (soups & recs & Hf & -> & H).
      inversion Hf as [|? soup ? soups' Hs Hf']; subst. simpl in H.
      apply Forall2_app_inv_l in H as (recs1 & recs2 & H1 & H2 & ->).
      apply get_soup_ok in Hs. rewrite Hs. simpl.
      assert (quotes_loop (find_all "div" (Some "quote") soup) acc
              = Ok (acc ++ recs1)) as ->
        by (apply quotes_loop_ok; eauto).
      simpl. apply IH. exists soups', recs2. rewrite app_assoc. auto.
Qed.

Lemma parse_quotes_ok (w : web) (links : list string)
  (out : list quote_data) :
  parse_quotes w links = Ok out <->
  exists soups,
    fetched w links soups /\
    Forall2 (fun el r => parse_quote el = Ok r) (quote_elements soups) out.
Proof.
  unfold parse_quotes. rewrite parse_quotes_from_ok. split.
  - intros (soups & recs & Hf & -> & H). eauto.
  - intros (soups & Hf & H). exists soups, out. auto.
Qed.

Lemma fetched_In (w : web) (links : list string) (soups : list node) :
  fetched w links soups ->
  (forall url soup, In url links -> w url = Some soup -> In soup soups) /\
  (forall soup, In soup soups -> exists url, In url links /\ w url = Some soup).
Proof.
  induction 1 as [|url soup links soups Hw _ [IH1 IH2]]; split; simpl;
    try contradiction.
  - intros u s [<-|Hu] Hs; [left; congruence | right; eauto].
  - intros s [<-|Hs]; [eauto|]. destruct (IH2 s Hs) as (u & Hu & Hw'). eauto.
Qed.

Lemma Forall2_In_right {A B : Type} (R : A -> B -> Prop) (l : list A)
  (l' : list B) (b : B) :
  Forall2 R l l' -> In b l' -> exists a, In a l /\ R a b.
Proof.
  induction 1 as [|x y l l' Hxy _ IH]; simpl; [contradiction|].
  intros [<-|Hin]; [eauto|]. destruct (IH Hin) as (a & Ha & Hab). eauto.
Qed.

(** X5.  [parse_quotes], in the sequential scripts and in the one that
    gathers its fetches, returns a list exactly when every page is fetched
    and every quote element of every page parses: the list then holds one
    record per quote element, page after page and in document order
    within a page.  A single quote element that lacks its author, text or
    tags element makes the whole call raise. *)
Theorem parse_quotes_all_or_nothing (w : web) (links : list string) :
  (forall out,
      parse_quotes w links = Ok out <->
      exists soups,
        fetched w links soups /\
        Forall2 (fun el r => parse_quote el = Ok r) (quote_elements soups) out) /\
  (forall out,
      Motor.parse_quotes w links = Ok out <-> parse_quotes w links = Ok out) /\
  (forall out soups,
      parse_quotes w links = Ok out -> fetched w links soups ->
      List.length out = List.length (quote_elements soups)) /\
  (forall url soup el,
      In url links -> w url = Some soup ->
      In el (find_all "div" (Some "quote") soup) ->
      find "small" (Some "author") el = None \/
      find "span" (Some "text") el = None \/
      find "div" (Some "tags") el = None ->
      (exists e, parse_quotes w links = Raise e) /\
      (exists e, Motor.parse_quotes w links = Raise e)).
Proof.
  split; [intros out; apply parse_quotes_ok|].
  split; [intros out; symmetry; apply parse_quotes_motor|].
  split.
  - intros out soups H Hf. apply parse_quotes_ok in H as (soups' & Hf' & H).
    assert (soups' = soups) as ->.
    { clear H. revert soups Hf. induction Hf' as [|u s l l' Hs _ IH];
        intros soups Hf; inversion Hf; subst; [reflexivity|].
      f_equal; [congruence | now apply IH]. }
    symmetry. exact (Forall2_same_length H).
  - intros url soup el Hurl Hw Hel Hmiss.
    assert (Hno : forall out, parse_quotes w links <> Ok out).
    { intros out H. apply parse_quotes_ok in H as (soups & Hf & H).
      assert (In el (quote_elements soups)) as Hin.
      { unfold quote_elements. apply in_flat_map. exists soup.
        split; [|exact Hel]. exact (proj1 (fetched_In Hf) url soup Hurl Hw). }
      destruct (@Forall2_In_l _ _ _ _ _ el H Hin) as (r & _ & Hr).
      apply parse_quote_ok in Hr as (a & q & t & Ha & Hq & Ht & _).
      destruct Hmiss as [E|[E|E]]; congruence. }
    split.
    + destruct (parse_quotes w links) as [out|e] eqn:E; [|eauto].
      now destruct (Hno out).
    + destruct (Motor.parse_quotes w links) as [out|e] eqn:E; [|eauto].
      apply parse_quotes_motor in E. now destruct (Hno out).
Qed.

Lemma parse_quotes_all_or_nothing_witness :
  List.length
    (quote_elements
       [ listing_page [einstein_world; rowling_choices] (Some "/page/2/");
         listing_page [einstein_miracle] None ]) = 3 /\
  (exists out,
      parse_quotes site ["http://quotes"; "http://quotes/page/2/"] = Ok out /\
      map author out = ["Albert Einstein"; "J.K. Rowling"; "Albert Einstein"]) /\
  (exists e, parse_quotes malformed_then_broken ["http://quotes"] = Raise e).
Proof.
  split; [reflexivity|]. split.
  - eexists. split; [vm_compute; reflexivity | reflexivity].
  - apply (proj2 (proj2 (proj2 (parse_quotes_all_or_nothing
                                  malformed_then_broken ["http://quotes"])))
             "http://quotes" _ untagged_quote (or_introl eq_refl) eq_refl).
    + now left.
    + right. right. reflexivity.
Defined.

(** ** A page that cannot be fetched *)

Lemma gather_raises (w : web) (links : list string) (url : string) :
  In url links -> w url = None ->
  Motor.gather w links = Raise ConnectionError.
Proof.
  induction links as [|u rest IH]; simpl; [contradiction|].
  intros Hin Hw. unfold get_soup at 1.
  destruct (w u) as [soup|] eqn:Hu; [|reflexivity].
  simpl. destruct Hin as [->|Hin]; [congruence|]. now rewrite IH.
Qed.

(** X6.  A listed page that cannot be fetched makes [get_authors_info]
    and [parse_quotes] raise instead of returning the other pages' data.
    The script that gathers its fetches always raises the connection
    error then, also when an earlier page is malformed; the same holds of
    its [parse_authors] for an author page that cannot be fetched. *)
Theorem unfetched_page_aborts (w : web) (base_url : string)
  (links : list string) (url : string) :
  In url links -> w url = None ->
  (exists e, get_authors_info w base_url links = Raise e) /\
  (exists e, parse_quotes w links = Raise e) /\
  Motor.parse_quotes w links = Raise ConnectionError /\
  (forall author_links,
      map author_info_url author_links = links ->
      (exists e, parse_authors w author_links = Raise e) /\
      Motor.parse_authors w author_links = Raise ConnectionError).
Proof.
  intros Hin Hw. split; [|split; [|split]].
  - destruct (get_authors_info w base_url links) as [out|e] eqn:E; [|eauto].
    unfold get_authors_info in E.
    apply get_authors_info_from_names in E as (_ & _ & Hf).
    now destruct (Hf url Hin).
  - destruct (parse_quotes w links) as [out|e] eqn:E; [|eauto].
    apply parse_quotes_ok in E as (soups & Hf & _).
    destruct (@Forall2_In_l _ _ _ _ _ url Hf Hin) as (soup & _ & Hs).
    congruence.
  - unfold Motor.parse_quotes. now rewrite (@gather_raises w links url Hin Hw).
  - intros author_links Hmap. split.
    + destruct (parse_authors w author_links) as [out|e] eqn:E; [|eauto].
      apply parse_authors_ok in E. subst links.
      apply in_map_iff in Hin as (a & Ha & Hin).
      destruct (@Forall2_In_l _ _ _ _ _ a E Hin) as (r & _ & Hr).
      apply resolved_iff in Hr as (soup & Hs & _). congruence.
    + unfold Motor.parse_authors. rewrite Hmap.
      now rewrite (@gather_raises w links url Hin Hw).
Qed.

Lemma unfetched_page_aborts_witness :
  parse_quotes malformed_then_broken ["http://quotes"; "http://quotes/page/2/"]
  = Raise AttributeError /\
  Motor.parse_quotes malformed_then_broken
                     ["http://quotes"; "http://quotes/page/2/"]
  = Raise ConnectionError.
Proof.
  split; [reflexivity|].
  apply (@unfetched_page_aborts malformed_then_broken "http://quotes"
           ["http://quotes"; "http://quotes/page/2/"] "http://quotes/page/2/");
    [right; now left | reflexivity].
Defined.

(** ** Quotes and the names collected for them *)

Lemma descendants_trans (n : node) :
  forall el a,
    In el (descendants n) -> In a (descendants el) -> In a (descendants n).
Proof.
  induction n as [s|nm cls ats cs IH] using node_tree_ind; intros el a;
    [contradiction|].
  cbn [descendants]. rewrite !in_flat_map.
  intros (c & Hc & Hel) Ha. exists c. split; [exact Hc|].
  right. destruct Hel as [<-|Hel]; [exact Ha|].
  rewrite Forall_forall in IH. now apply (IH c Hc el a).
Qed.

Lemma author_of_quote_on_page (soup el a : node) :
  In el (find_all "div" (Some "quote") soup) ->
  find "small" (Some "author") el = Some a ->
  In a (find_all "small" (Some "author") soup).
Proof.
  unfold find, find_all. intros Hel Ha.
  apply filter_In in Hel as [Hel _].
  assert (In a (filter (matches "small" (Some "author")) (descendants el)))
    as Hin.
  { destruct (filter _ (descendants el)); [discriminate|].
    injection Ha as ->. now left. }
  apply filter_In in Hin as [Hin Hm]. apply filter_In. split; [|exact Hm].
  now apply descendants_trans with el.
Qed.

Lemma quote_author_on_pages (w : web) (urls : list string)
  (quotes_list : list quote_data) :
  parse_quotes w urls = Ok quotes_list ->
  forall q, In q quotes_list -> named_on w urls (author q).
Proof.
  intros Hq q Hin.
  apply parse_quotes_ok in Hq as (soups & Hf & Hq).
  destruct (@Forall2_In_right _ _ _ _ _ q Hq Hin) as (el & Hel & Hp).
  apply parse_quote_ok in Hp as (a & qt & t & Hfa & _ & _ & ->). simpl.
  unfold quote_elements in Hel. apply in_flat_map in Hel as (soup & Hs & Hel).
  destruct (proj2 (fetched_In Hf) soup Hs) as (url & Hurl & Hw).
  exists url, soup, a. repeat split; auto.
  now apply author_of_quote_on_page with el.
Qed.

(** X7.  Every quote record that [parse_quotes] extracts from the crawled
    pages carries an author name that [get_authors_info] collected from
    the same pages: no extracted quote is without a reference. *)
Theorem every_quote_names_a_collected_author (w : web) (base_url : string)
  (urls : list string) (author_links : list author_link)
  (quotes_list : list quote_data) :
  get_authors_info w base_url urls = Ok author_links ->
  parse_quotes w urls = Ok quotes_list ->
  forall q, In q quotes_list ->
            In (author q) (map author_name author_links).
Proof.
  intros Ha Hq q Hin. unfold get_authors_info in Ha.
  apply get_authors_info_from_names in Ha as (_ & Hnames & _).
  apply Hnames. right. exact (@quote_author_on_pages w urls _ Hq q Hin).
Qed.

Lemma every_quote_names_a_collected_author_witness :
  parse_quotes site ["http://quotes"]
  = Ok [ world_quote;
         {| tags := ["abilities"; "choices"];
            author := "J.K. Rowling";
            quote := "It is our choices, Harry, that show what we truly are." |} ] /\
  In (author world_quote) ["Albert Einstein"; "J.K. Rowling"].
Proof.
  split; [reflexivity|].
  apply (@every_quote_names_a_collected_author site "http://quotes"
           ["http://quotes"] _ _ eq_refl eq_refl world_quote).
  now left.
Defined.

(** ** A crawl that collects no author *)

Lemma scrape_parts (fuel : nat) (w : web) (base : string)
  (data : list author_data * list quote_data) :
  scrape fuel w base = Some (Ok data) ->
  exists pages author_links,
    get_pages fuel w base = Some (Ok pages) /\
    get_authors_info w base pages = Ok author_links /\
    parse_authors w author_links = Ok (fst data) /\
    parse_quotes w pages = Ok (snd data).
Proof.
  unfold scrape. destruct (get_pages fuel w base) as [[pages|e]|];
    [|discriminate|discriminate].
  intros [= H]. simpl in H. apply bind_ok in H as (author_links & Hl & H).
  apply bind_ok in H as (a & Ha & H). apply bind_ok in H as (q & Hq & [= <-]).
  exists pages, author_links. auto.
Qed.

(** X8.  A crawl that collects no author extracts no quote either.  The
    four scripts that save record by record then end normally and leave
    the store as it was; [main_asincio_motor.py] raises the type error,
    as its single insert of all authors refuses an empty list. *)
Theorem crawl_without_authors (fuel : nat) (w : web) (base : string)
  (quotes_data : list quote_data) :
  scrape fuel w base = Some (Ok ([], quotes_data)) ->
  quotes_data = [] /\
  (forall m st,
      runs_to (main fuel w base m) st st /\
      runs_to (main_asincio fuel w base m) st st /\
      runs_to (main_oop fuel w base m) st st /\
      runs_to (main_oop_asincio fuel w base m) st st) /\
  (exists run',
      main_asincio_motor fuel w base = Some run' /\
      forall st, run' st = (Raise TypeError, st)).
Proof.
  intros Hs.
  assert (quotes_data = []) as ->.
  { destruct (scrape_parts _ _ _ Hs) as (pages & links & _ & Hl & Ha & Hq).
    simpl in Ha, Hq. apply parse_authors_ok in Ha.
    apply Forall2_same_length in Ha. destruct links; [|discriminate].
    destruct quotes_data as [|q rest]; [reflexivity|].
    unfold get_authors_info in Hl.
    apply get_authors_info_from_names in Hl as (_ & Hnames & _).
    pose proof (@quote_author_on_pages w pages _ Hq q (or_introl eq_refl)) as Hn.
    destruct (proj2 (Hnames (author q)) (or_intror Hn)). }
  split; [reflexivity|]. split.
  - intros m st.
    assert (runs_to (main fuel w base m) st st) as Hmain.
    { unfold main. rewrite Hs. eexists. split; reflexivity. }
    split; [exact Hmain|]. split; [exact Hmain|]. split; [exact Hmain|].
    unfold main_oop_asincio. rewrite Hs. eexists. split; reflexivity.
  - apply scrape_motor_ok in Hs. unfold main_asincio_motor. rewrite Hs.
    eexists. split; reflexivity.
Qed.

Lemma crawl_without_authors_witness :
  scrape 3 three_pages "http://quotes" = Some (Ok ([], [])) /\
  runs_to (main 3 three_pages "http://quotes" unique_index)
          einstein_store einstein_store /\
  (exists run',
      main_asincio_motor 3 three_pages "http://quotes" = Some run' /\
      forall st, run' st = (Raise TypeError, st)).
Proof.
  split; [reflexivity|].
  destruct (@crawl_without_authors 3 three_pages "http://quotes" []
              eq_refl) as (_ & H & Hm).
  split; [exact (proj1 (H unique_index einstein_store)) | exact Hm].
Defined.

(** ** What an upload never does *)

Lemma only_appends_refl (st : store) : only_appends st st.
Proof. split; exists []; now rewrite app_nil_r. Qed.

Lemma only_appends_trans (st1 st2 st3 : store) :
  only_appends st1 st2 -> only_appends st2 st3 -> only_appends st1 st3.
Proof.
  intros [(a1 & Ha1) (q1 & Hq1)] [(a2 & Ha2) (q2 & Hq2)]. split.
  - exists (a1 ++ a2). now rewrite Ha2, Ha1, app_assoc.
  - exists (q1 ++ q2). now rewrite Hq2, Hq1, app_assoc.
Qed.

Lemma for_each_only_appends {A : Type} (body : A -> DB unit) (l : list A) :
  (forall x s, only_appends s (snd (body x s))) ->
  forall st, only_appends st (snd (for_each body l st)).
Proof.
  intros Hbody. induction l as [|x rest IH]; intros st; simpl.
  - apply only_appends_refl.
  - unfold bindDB. pose proof (Hbody x st) as Hx.
    destruct (body x st) as [[[]|e] st1]; simpl in *; [|exact Hx].
    eapply only_appends_trans; [exact Hx | apply IH].
Qed.

Lemma insert_author_appends (d : author_data) (st : store) :
  only_appends st (insert_author d st).
Proof. split; simpl; [eauto | exists []; now rewrite app_nil_r]. Qed.

Lemma insert_quote_appends (t : list string) (a : nat) (q : string)
  (st : store) :
  only_appends st (insert_quote t a q st).
Proof. split; simpl; [exists []; now rewrite app_nil_r | eauto]. Qed.

Lemma Author_save_appends (m : models) (d : author_data) (st : store) :
  only_appends st (snd (Author_save m d st)).
Proof.
  unfold Author_save. destruct (unique_fullname m && _); simpl;
    [apply only_appends_refl | apply insert_author_appends].
Qed.

Lemma Quote_save_appends (m : models) (t : list string) (a : author_doc)
  (q : string) (st : store) :
  only_appends st (snd (Quote_save m t a q st)).
Proof.
  unfold Quote_save. destruct (unique_quote m && _); simpl;
    [apply only_appends_refl | apply insert_quote_appends].
Qed.

Lemma main_authors_append (m : models) (data : list author_data) (st : store) :
  only_appends st (snd (Main.upload_author_data m data st)).
Proof.
  unfold Main.upload_author_data. apply for_each_only_appends.
  intros d s. apply Author_save_appends.
Qed.

Lemma main_quotes_append (m : models) (data : list quote_data) (st : store) :
  only_appends st (snd (Main.upload_quotes_data m data st)).
Proof.
  unfold Main.upload_quotes_data. apply for_each_only_appends.
  intros q s. cbv zeta. unfold bindDB, Author_objects_first, ret.
  destruct (List.find _ _); [apply Quote_save_appends|].
  apply only_appends_refl.
Qed.

Lemma oop_authors_append (m : models) (data : list author_data) (st : store) :
  only_appends st (snd (OopAsincio.upload_author_data m data st)).
Proof.
  unfold OopAsincio.upload_author_data. apply for_each_only_appends.
  intros d s. rewrite oop_author_step. simpl. unfold persist_author.
  destruct (stored_fullname _ _);
    [apply only_appends_refl | apply insert_author_appends].
Qed.

Lemma oop_quotes_append (m : models) (data : list quote_data) (st : store) :
  only_appends st (snd (OopAsincio.upload_quotes_data m data st)).
Proof.
  unfold OopAsincio.upload_quotes_data. apply for_each_only_appends.
  intros q s. cbv zeta. rewrite oop_quote_step. simpl. unfold persist_quote.
  destruct (List.find _ _); [|apply only_appends_refl].
  destruct (stored_text _ _);
    [apply only_appends_refl | apply insert_quote_appends].
Qed.

Lemma insert_authors_append (data : list author_data) :
  forall st, only_appends st (insert_authors data st).
Proof.
  induction data as [|d rest IH]; intros st; [apply only_appends_refl|].
  eapply only_appends_trans; [apply (insert_author_appends d)|].
  apply (IH (insert_author d st)).
Qed.

Lemma motor_authors_append (data : list author_data) (st : store) :
  only_appends st (snd (Motor.upload_author_data data st)).
Proof.
  unfold Motor.upload_author_data, Motor.insert_many.
  destruct data as [|d rest]; [apply only_appends_refl|].
  apply (insert_authors_append (d :: rest)).
Qed.

Lemma motor_quotes_append (data : list quote_data) (st : store) :
  only_appends st (snd (Motor.upload_quotes_data data st)).
Proof.
  unfold Motor.upload_quotes_data. apply for_each_only_appends.
  intros q s. cbv zeta. unfold bindDB, Motor.find_one, Motor.insert_one, ret.
  destruct (List.find _ _); [apply insert_quote_appends|].
  apply only_appends_refl.
Qed.

Lemma run_only_appends
  (scraped : option (result (list author_data * list quote_data)))
  (up_a : list author_data -> DB unit) (up_q : list quote_data -> DB unit)
  (run' : DB unit) :
  (forall d s, only_appends s (snd (up_a d s))) ->
  (forall d s, only_appends s (snd (up_q d s))) ->
  run scraped up_a up_q = Some run' ->
  forall st, only_appends st (snd (run' st)).
Proof.
  intros Ha Hq. unfold run. destruct scraped as [r|]; [|discriminate].
  intros [= <-] st. unfold bindDB, lift.
  destruct r as [data|e]; [|apply only_appends_refl].
  pose proof (Ha (fst data) st) as H1.
  destruct (up_a (fst data) st) as [[[]|e] st1]; simpl in *; [|exact H1].
  eapply only_appends_trans; [exact H1 | apply Hq].
Qed.

Lemma find_app_keeps {A : Type} (p : A -> bool) (l new : list A) (a : A) :
  List.find p l = Some a -> List.find p (l ++ new) = Some a.
Proof.
  induction l as [|x l IH]; simpl; [discriminate|].
  destruct (p x); [auto | exact IH].
Qed.

(** X9.  A run of any of the five scripts only appends to the store: the
    authors and quotes stored before are all still there, unchanged and in
    place, also when the run raises half way.  A lookup by fullname or by
    quote text that found a document before the run therefore finds the
    same document after it, never a newer one. *)
Theorem run_only_appends_to_the_store (fuel : nat) (w : web) (base : string)
  (m : models) (run' : DB unit) (st : store) :
  main fuel w base m = Some run' \/
  main_asincio fuel w base m = Some run' \/
  main_oop fuel w base m = Some run' \/
  main_oop_asincio fuel w base m = Some run' \/
  main_asincio_motor fuel w base = Some run' ->
  only_appends st (snd (run' st)) /\
  (forall name a,
      List.find (has_fullname name) (db_authors st) = Some a ->
      List.find (has_fullname name) (db_authors (snd (run' st))) = Some a) /\
  (forall t d,
      List.find (has_text t) (db_quotes st) = Some d ->
      List.find (has_text t) (db_quotes (snd (run' st))) = Some d).
Proof.
  intros H.
  assert (Happ : only_appends st (snd (run' st))).
  { destruct H as [H|[H|[H|[H|H]]]].
    - eapply run_only_appends; [| |exact H].
      + apply main_authors_append.
      + apply main_quotes_append.
    - eapply run_only_appends; [| |exact H].
      + apply main_authors_append.
      + apply main_quotes_append.
    - eapply run_only_appends; [| |exact H].
      + apply main_authors_append.
      + apply main_quotes_append.
    - eapply run_only_appends; [| |exact H].
      + apply oop_authors_append.
      + apply oop_quotes_append.
    - eapply run_only_appends; [| |exact H].
      + apply motor_authors_append.
      + apply motor_quotes_append. }
  split; [exact Happ|].
  destruct Happ as [(na & Ha) (nq & Hq)]. split.
  - intros name a Hf. rewrite Ha. now apply find_app_keeps.
  - intros t d Hf. rewrite Hq. now apply find_app_keeps.
Qed.

Lemma run_only_appends_to_the_store_witness :
  exists run',
    main 3 site "http://quotes" no_index = Some run' /\
    map stored_name (db_authors (snd (run' einstein_store)))
    = ["Albert Einstein"; "Albert Einstein"; "J.K. Rowling"] /\
    List.find (has_fullname "Albert Einstein")
              (db_authors (snd (run' einstein_store)))
    = Some {| author_id := 0; author_fields := einstein |}.
Proof.
  eexists. split; [reflexivity|]. split; [reflexivity|].
  apply (proj1 (proj2 (@run_only_appends_to_the_store 3 site "http://quotes"
                         no_index _ einstein_store (or_introl eq_refl)))).
  reflexivity.
Defined.

(** ** Quotes saved without a lookup of their text *)

Lemma resolvable_find (st : store) (q : quote_data) :
  resolvable st q
  = match List.find (has_fullname (author q)) (db_authors st) with
    | Some _ => true
    | None => false
    end.
Proof. unfold resolvable, stored_fullname. apply find_existsb. Qed.

Lemma insert_quotes_new (quotes_data : list quote_data) :
  forall st,
    db_authors (insert_quotes quotes_data st) = db_authors st /\
    exists new,
      db_quotes (insert_quotes quotes_data st) = db_quotes st ++ new /\
      Forall2 (fun q d =>
                 exists a,
                   List.find (has_fullname (author q)) (db_authors st) = Some a /\
                   quote_of q a d)
              (filter (resolvable st) quotes_data) new.
Proof.
  induction quotes_data as [|q rest IH]; intros st.
  - split; [reflexivity|]. exists []. simpl. rewrite app_nil_r.
    split; [reflexivity | constructor].
  - change (insert_quotes (q :: rest) st)
      with (insert_quotes rest (insert_resolved q st)).
    destruct (IH (insert_resolved q st)) as (Ha & new & Hq & HF).
    simpl filter. rewrite resolvable_find.
    unfold insert_resolved in *.
    destruct (List.find (has_fullname (author q)) (db_authors st)) as [a|] eqn:E.
    + simpl in Ha, Hq, HF. split; [exact Ha|].
      exists ({| quote_id := db_next_id st; quote_tags := tags q;
                 quote_author := author_id a; quote_text := quote q |} :: new).
      rewrite <- app_assoc in Hq. split; [exact Hq|].
      constructor; [exists a; split; [exact E | now unfold quote_of]|].
      exact HF.
    + split; [exact Ha|]. exists new. split; [exact Hq | exact HF].
Qed.

(** X10.  In [main_asincio_motor.py], and in [main.py], [main_asincio.py]
    and [main_oop.py] when [models.py] declares no unique index on the
    quote text, [upload_quotes_data] ends normally, leaves the authors as
    they are and appends one quote document for each input record whose
    author name is stored, in input order and repeated texts included; each
    document keeps the record's tags and text and refers to the first
    stored author of that name. *)
Theorem quotes_saved_one_per_resolved_record (m : models)
  (quotes_data : list quote_data) (st : store) :
  Motor.upload_quotes_data quotes_data st
  = (Ok tt, insert_quotes quotes_data st) /\
  (unique_quote m = false ->
   Main.upload_quotes_data m quotes_data st
   = (Ok tt, insert_quotes quotes_data st) /\
   MainAsincio.upload_quotes_data m quotes_data st
   = (Ok tt, insert_quotes quotes_data st) /\
   MainOop.upload_quotes_data m quotes_data st
   = (Ok tt, insert_quotes quotes_data st)) /\
  db_authors (insert_quotes quotes_data st) = db_authors st /\
  (exists new,
      db_quotes (insert_quotes quotes_data st) = db_quotes st ++ new /\
      List.length new = List.length (filter (resolvable st) quotes_data) /\
      Forall2 (fun q d =>
                 exists a,
                   List.find (has_fullname (author q)) (db_authors st) = Some a /\
                   quote_of q a d)
              (filter (resolvable st) quotes_data) new).
Proof.
  split; [apply motor_upload_quotes|]. split.
  - intros Hm. repeat split; now apply main_upload_quotes.
  - destruct (insert_quotes_new quotes_data st) as (Ha & new & Hq & HF).
    split; [exact Ha|]. exists new. split; [exact Hq|].
    split; [|exact HF]. symmetry. exact (Forall2_same_length HF).
Qed.

Lemma quotes_saved_one_per_resolved_record_witness :
  map quote_text
      (db_quotes
         (snd (Motor.upload_quotes_data [world_quote; orphan_quote; world_quote]
                                        einstein_store)))
  = [quote world_quote; quote world_quote; quote world_quote].
Proof.
  rewrite (proj1 (quotes_saved_one_per_resolved_record no_index
                    [world_quote; orphan_quote; world_quote] einstein_store)).
  reflexivity.
Defined.

(** ** Authors of one fullname *)

Lemma persistAuthors_first (records : list author_data) :
  forall st,
    map author_fields (db_authors (persistAuthors records st))
    = map author_fields (db_authors st)
      ++ filter (not_stored st) (first_by_fullname records).
Proof.
  induction records as [|d rest IH]; intros st.
  - simpl. now rewrite app_nil_r.
  - change (persistAuthors (d :: rest) st)
      with (persistAuthors rest (persist_author d st)).
    rewrite IH. simpl first_by_fullname. simpl filter.
    unfold persist_author, not_stored at 2.
    destruct (stored_fullname (fullname d) st) eqn:Hd; simpl.
    + f_equal. rewrite filter_filter. apply filter_ext_in. intros x _.
      unfold other_fullname, not_stored.
      destruct (String.eqb_spec (fullname x) (fullname d)) as [->|_];
        simpl; [now rewrite Hd | reflexivity].
    + rewrite map_app, <- app_assoc. simpl. do 2 f_equal.
      rewrite filter_filter. apply filter_ext. intros x.
      unfold other_fullname, not_stored.
      rewrite stored_fullname_insert, negb_orb.
      rewrite (String.eqb_sym (fullname d)). apply andb_comm.
Qed.

Lemma first_by_fullname_NoDup (records : list author_data) :
  NoDup (map fullname (first_by_fullname records)).
Proof.
  induction records as [|d rest IH]; simpl; constructor.
  - intros Hin. apply in_map_iff in Hin as (x & Hx & Hin).
    apply filter_In in Hin as [_ Hne]. unfold other_fullname in Hne.
    apply negb_true_iff, String.eqb_neq in Hne. congruence.
  - clear - IH. induction (first_by_fullname rest) as [|x l IHl]; simpl;
      [constructor|].
    apply NoDup_cons_iff in IH as [Hx Hl].
    destruct (other_fullname d x); simpl; [|auto].
    constructor; [|auto].
    intros Hin. apply Hx. apply in_map_iff in Hin as (y & Hy & Hin).
    apply filter_In in Hin as [Hin _]. apply in_map_iff. eauto.
Qed.

(** X11.  In [main_oop_asincio.py], [upload_author_data] stores, behind
    the authors already there, the first record of each fullname that was
    not stored, in input order; a later record of the same fullname is
    dropped even when its other fields differ. *)
Theorem first_record_of_a_fullname_wins (m : models)
  (authors_data : list author_data) (st : store) :
  map author_fields
      (db_authors (snd (OopAsincio.upload_author_data m authors_data st)))
  = map author_fields (db_authors st)
    ++ filter (not_stored st) (first_by_fullname authors_data) /\
  NoDup (map fullname (first_by_fullname authors_data)) /\
  (forall d, In d authors_data ->
             In (fullname d) (map fullname (first_by_fullname authors_data))).
Proof.
  split.
  - rewrite oop_upload_authors. simpl. apply persistAuthors_first.
  - split; [apply first_by_fullname_NoDup|].
    induction authors_data as [|d0 rest IH]; intros d; simpl; [contradiction|].
    intros [<-|Hin]; [now left|].
    destruct (String.eqb_spec (fullname d) (fullname d0)) as [E|E];
      [left; congruence|].
    right. apply IH in Hin. apply in_map_iff in Hin as (x & Hx & Hin).
    apply in_map_iff. exists x. split; [exact Hx|].
    apply filter_In. split; [exact Hin|].
    unfold other_fullname. apply negb_true_iff, String.eqb_neq. congruence.
Qed.

Lemma first_record_of_a_fullname_wins_witness :
  map author_fields
      (db_authors
         (snd (OopAsincio.upload_author_data unique_index
                 [einstein; rowling; einstein_revised] empty_store)))
  = [einstein; rowling].
Proof.
  rewrite (proj1 (first_record_of_a_fullname_wins unique_index
                    [einstein; rowling; einstein_revised] empty_store)).
  reflexivity.
Defined.

(** ** Names with white space around them *)

Lemma lstrip_fixed (s : string) :
  not_space (first_char s) = true -> lstrip s = s.
Proof.
  destruct s as [|c s]; simpl; [reflexivity|].
  intros H. apply negb_true_iff in H. now rewrite H.
Qed.

Lemma rstrip_fixed (s : string) :
  not_space (last_char s) = true -> rstrip s = s.
Proof.
  induction s as [|c s IH]; simpl; [reflexivity|].
  destruct s as [|c' s'].
  - simpl. intros H. apply negb_true_iff in H. now rewrite H.
  - intros H. rewrite (IH H). reflexivity.
Qed.

Lemma strip_idempotent (s : string) : strip (strip s) = strip s.
Proof.
  destruct (strip_trimmed s) as (l & r & _ & _ & _ & Hf & Hl).
  unfold strip at 1. now rewrite (lstrip_fixed _ Hf), (rstrip_fixed _ Hl).
Qed.

Lemma resolved_fullname_stripped (w : web) (a : author_link)
  (r : author_data) :
  resolved w a r -> strip (fullname r) = fullname r.
Proof.
  intros (soup & t & d & l & b & _ & _ & _ & _ & _ & ->). simpl.
  apply strip_idempotent.
Qed.

Lemma find_none_app {A : Type} (p : A -> bool) (l new : list A) :
  List.find p l = None ->
  Forall (fun x => p x = false) new ->
  List.find p (l ++ new) = None.
Proof.
  intros Hl Hnew. induction l as [|x l IH]; simpl in *.
  - induction Hnew as [|y new Hy _ IHn]; simpl; [reflexivity|].
    now rewrite Hy.
  - destruct (p x); [discriminate | auto].
Qed.

Lemma padded_name_unresolved (recs : list author_data) (q : quote_data)
  (st st' : store) :
  Forall (fun r => strip (fullname r) = fullname r) recs ->
  strip (author q) <> author q ->
  List.find (has_fullname (author q)) (db_authors st) = None ->
  (exists new,
      db_authors st' = db_authors st ++ new /\
      Forall (fun a => In (author_fields a) recs) new) ->
  List.find (has_fullname (author q)) (db_authors st') = None.
Proof.
  intros Hrecs Hq Hst (new & -> & Hnew). apply find_none_app; [exact Hst|].
  eapply Forall_impl; [|exact Hnew]. intros a Ha. simpl in Ha.
  unfold has_fullname. apply String.eqb_neq. intros E.
  rewrite Forall_forall in Hrecs. apply Hq. rewrite <- E. now apply Hrecs.
Qed.

Lemma appends_authors_refl (data : list author_data) (st : store) :
  appends_authors_of data st st.
Proof. split; [exists []; rewrite app_nil_r; auto | reflexivity]. Qed.

Lemma appends_authors_trans (data : list author_data) (st1 st2 st3 : store) :
  appends_authors_of data st1 st2 -> appends_authors_of data st2 st3 ->
  appends_authors_of data st1 st3.
Proof.
  intros [(n1 & H1 & F1) Q1] [(n2 & H2 & F2) Q2]. split; [|congruence].
  exists (n1 ++ n2). rewrite H2, H1, app_assoc. split; [reflexivity|].
  apply Forall_app. auto.
Qed.

Lemma insert_author_appends_of (data : list author_data) (d : author_data)
  (st : store) :
  In d data -> appends_authors_of data st (insert_author d st).
Proof.
  intros Hd. split; [|reflexivity].
  exists [{| author_id := db_next_id st; author_fields := d |}].
  split; [reflexivity|]. constructor; [exact Hd | constructor].
Qed.

Lemma for_each_appends_authors (body : author_data -> DB unit)
  (data : list author_data) :
  (forall d s, In d data -> appends_authors_of data s (snd (body d s))) ->
  forall l st,
    incl l data -> appends_authors_of data st (snd (for_each body l st)).
Proof.
  intros Hbody. induction l as [|x rest IH]; intros st Hincl; simpl.
  - apply appends_authors_refl.
  - unfold bindDB.
    pose proof (Hbody x st (Hincl x (or_introl eq_refl))) as Hx.
    destruct (body x st) as [[[]|e] st1]; simpl in *; [|exact Hx].
    eapply appends_authors_trans; [exact Hx|]. apply IH.
    intros y Hy. apply Hincl. now right.
Qed.

Lemma main_authors_from_data (m : models) (data : list author_data)
  (st : store) :
  appends_authors_of data st (snd (Main.upload_author_data m data st)).
Proof.
  unfold Main.upload_author_data.
  apply for_each_appends_authors; [|apply incl_refl].
  intros d s Hd. unfold Author_save. destruct (unique_fullname m && _); simpl;
    [apply appends_authors_refl | now apply insert_author_appends_of].
Qed.

Lemma oop_authors_from_data (m : models) (data : list author_data)
  (st : store) :
  appends_authors_of data st (snd (OopAsincio.upload_author_data m data st)).
Proof.
  unfold OopAsincio.upload_author_data.
  apply for_each_appends_authors; [|apply incl_refl].
  intros d s Hd. rewrite oop_author_step. simpl. unfold persist_author.
  destruct (stored_fullname _ _);
    [apply appends_authors_refl | now apply insert_author_appends_of].
Qed.

Lemma motor_authors_from_data (data : list author_data) (st : store) :
  appends_authors_of data st (snd (Motor.upload_author_data data st)).
Proof.
  unfold Motor.upload_author_data, Motor.insert_many.
  destruct data as [|d0 rest0] eqn:E; [apply appends_authors_refl|].
  rewrite <- E. simpl snd.
  assert (H : forall l s, incl l data ->
                appends_authors_of data s
                  (fold_left (fun s' d => insert_author d s') l s)).
  { induction l as [|x l IH]; intros s Hincl; simpl;
      [apply appends_authors_refl|].
    eapply appends_authors_trans.
    - apply (insert_author_appends_of data x s). apply Hincl. now left.
    - apply IH. intros y Hy. apply Hincl. now right. }
  apply H, incl_refl.
Qed.

(** X12.  The fullname of an author record is a trimmed text, while the
    author name of a quote is the listing's text as it is.  So a quote
    whose author name has white space at either end equals none of the
    fullnames resolved in the same run; and unless that padded name was
    stored before, in every script [upload_quotes_data] for that quote,
    run on the store that [upload_author_data] left, whether that upload
    ended normally or raised, returns normally and leaves the store as it
    is. *)
Theorem padded_name_never_links (w : web) (author_links : list author_link)
  (recs : list author_data) (q : quote_data) (m : models) (st : store) :
  parse_authors w author_links = Ok recs ->
  strip (author q) <> author q ->
  stored_fullname (author q) st = false ->
  (forall r, In r recs -> fullname r <> author q) /\
  Main.upload_quotes_data m [q] (snd (Main.upload_author_data m recs st))
  = (Ok tt, snd (Main.upload_author_data m recs st)) /\
  MainAsincio.upload_quotes_data m [q]
    (snd (MainAsincio.upload_author_data m recs st))
  = (Ok tt, snd (MainAsincio.upload_author_data m recs st)) /\
  MainOop.upload_quotes_data m [q] (snd (MainOop.upload_author_data m recs st))
  = (Ok tt, snd (MainOop.upload_author_data m recs st)) /\
  OopAsincio.upload_quotes_data m [q]
    (snd (OopAsincio.upload_author_data m recs st))
  = (Ok tt, snd (OopAsincio.upload_author_data m recs st)) /\
  Motor.upload_quotes_data [q] (snd (Motor.upload_author_data recs st))
  = (Ok tt, snd (Motor.upload_author_data recs st)).
Proof.
  intros Hp Hq Hst. apply parse_authors_ok in Hp.
  assert (Hrecs : Forall (fun r => strip (fullname r) = fullname r) recs).
  { apply Forall_forall. intros r Hr.
    destruct (@Forall2_In_right _ _ _ _ _ r Hp Hr) as (a & _ & Ha).
    now apply resolved_fullname_stripped with w a. }
  assert (Hfind : List.find (has_fullname (author q)) (db_authors st) = None).
  { unfold stored_fullname in Hst. rewrite find_existsb in Hst.
    now destruct (List.find _ _). }
  assert (Hmain : List.find (has_fullname (author q))
                    (db_authors (snd (Main.upload_author_data m recs st)))
                  = None).
  { apply (@padded_name_unresolved recs q st _ Hrecs Hq Hfind).
    exact (proj1 (main_authors_from_data m recs st)). }
  split.
  - intros r Hr E. rewrite Forall_forall in Hrecs. apply Hq.
    rewrite <- E. now apply Hrecs.
  - split; [exact (main_skips_unresolved m q [] [] _ Hmain)|].
    split; [exact (main_skips_unresolved m q [] [] _ Hmain)|].
    split; [exact (main_skips_unresolved m q [] [] _ Hmain)|].
    split.
    + apply (oop_skips_unresolved m q [] []).
      apply (@padded_name_unresolved recs q st _ Hrecs Hq Hfind).
      exact (proj1 (oop_authors_from_data m recs st)).
    + apply (motor_skips_unresolved q [] []).
      apply (@padded_name_unresolved recs q st _ Hrecs Hq Hfind).
      exact (proj1 (motor_authors_from_data recs st)).
Qed.

Lemma padded_name_never_links_witness :
  (exists run',
      main_oop_asincio 2 padded_site "http://quotes" unique_index = Some run' /\
      map stored_name (db_authors (snd (run' empty_store)))
      = ["Albert Einstein"] /\
      db_quotes (snd (run' empty_store)) = []) /\
  Motor.upload_quotes_data
    [ {| tags := ["imagination"]; author := "Albert Einstein ";
         quote := "Imagination is more important than knowledge." |} ]
    (snd (Motor.upload_author_data [einstein] empty_store))
  = (Ok tt, snd (Motor.upload_author_data [einstein] empty_store)).
Proof.
  split; [eexists; repeat split; reflexivity|].
  refine (proj2 (proj2 (proj2 (proj2 (proj2
           (@padded_name_never_links padded_site
              [ {| author_name := "Albert Einstein ";
                   author_info_url := "http://quotes/author/Albert-Einstein" |} ]
              [einstein]
              {| tags := ["imagination"]; author := "Albert Einstein ";
                 quote := "Imagination is more important than knowledge." |}
              no_index empty_store eq_refl _ eq_refl)))))).
  discriminate.
Defined.

(** ** What a successful scrape hands to the uploads *)

(** X13.  When the scrape of a site with a non-empty seed URL succeeds,
    the pages crawled form the chain of next links; the collected
    references carry exactly the author names displayed on those pages,
    each name once; the author records are the resolved pages of those
    references, one record per reference and in the same order; and every
    extracted quote names one of the references.  The script that gathers
    its fetches succeeds on the same sites with the same data. *)
Theorem scrape_result (fuel : nat) (w : web) (base : string)
  (data : list author_data * list quote_data) :
  truthy base = true ->
  scrape fuel w base = Some (Ok data) ->
  scrape_motor fuel w base = Some (Ok data) /\
  exists hrefs author_links,
    next_chain w base base hrefs /\
    get_authors_info w base (base :: map (String.append base) hrefs)
    = Ok author_links /\
    NoDup (map author_name author_links) /\
    (forall n, In n (map author_name author_links) <->
               named_on w (base :: map (String.append base) hrefs) n) /\
    Forall2 (resolved w) author_links (fst data) /\
    List.length (fst data) = List.length author_links /\
    (forall q, In q (snd data) ->
               In (author q) (map author_name author_links)).
Proof.
  intros Hbase Hs. split; [now apply scrape_motor_ok|].
  destruct (scrape_parts _ _ _ Hs) as (pages & links & Hp & Hl & Ha & Hq).
  unfold get_pages in Hp.
  apply get_pages_loop_sound in Hp as (hrefs & -> & Hc & _); auto.
  exists hrefs, links. split; [exact Hc|]. split; [exact Hl|].
  apply parse_authors_ok in Ha.
  pose proof Hl as Hl'. unfold get_authors_info in Hl'.
  apply get_authors_info_from_names in Hl' as (Hnd & Hnames & _).
  split; [apply Hnd; constructor|].
  split; [intros n; rewrite Hnames; simpl; tauto|].
  split; [exact Ha|].
  split; [symmetry; exact (Forall2_same_length Ha)|].
  intros q Hin. apply Hnames. right.
  exact (@quote_author_on_pages w _ _ Hq q Hin).
Qed.

Lemma scrape_result_witness :
  exists data,
    scrape 3 site "http://quotes" = Some (Ok data) /\
    scrape_motor 3 site "http://quotes" = Some (Ok data) /\
    fst data = [einstein; rowling] /\
    map author (snd data)
    = ["Albert Einstein"; "J.K. Rowling"; "Albert Einstein"].
Proof.
  eexists. split; [vm_compute; reflexivity|]. split.
  - apply (@scrape_result 3 site "http://quotes" _ eq_refl). reflexivity.
  - split; reflexivity.
Defined.

(** ** Stored quotes and their authors *)

Lemma for_each_invariant {A : Type} (P : store -> Prop) (body : A -> DB unit)
  (l : list A) :
  (forall x s, P s -> P (snd (body x s))) ->
  forall st, P st -> P (snd (for_each body l st)).
Proof.
  intros Hbody. induction l as [|x rest IH]; intros st Hst; simpl;
    [exact Hst|].
  unfold bindDB. pose proof (Hbody x st Hst) as Hx.
  destruct (body x st) as [[[]|e] st1]; simpl in *; [now apply IH | exact Hx].
Qed.

Lemma run_invariant (P : store -> Prop)
  (scraped : option (result (list author_data * list quote_data)))
  (up_a : list author_data -> DB unit) (up_q : list quote_data -> DB unit)
  (run' : DB unit) :
  (forall d s, P s -> P (snd (up_a d s))) ->
  (forall d s, P s -> P (snd (up_q d s))) ->
  run scraped up_a up_q = Some run' ->
  forall st, P st -> P (snd (run' st)).
Proof.
  intros Ha Hq. unfold run. destruct scraped as [r|]; [|discriminate].
  intros [= <-] st Hst. unfold bindDB, lift.
  destruct r as [data|e]; [|exact Hst].
  pose proof (Ha (fst data) st Hst) as H1.
  destruct (up_a (fst data) st) as [[[]|e] st1]; simpl in *;
    [now apply Hq | exact H1].
Qed.

Lemma insert_author_linked (d : author_data) (st : store) :
  well_linked st -> well_linked (insert_author d st).
Proof.
  unfold well_linked. simpl. intros H. eapply Forall_impl; [|exact H].
  intros q (a & Ha & Hid). exists a. split; [|exact Hid].
  apply in_or_app. now left.
Qed.

Lemma insert_quote_linked (t : list string) (a : author_doc) (q : string)
  (st : store) :
  In a (db_authors st) ->
  well_linked st -> well_linked (insert_quote t (author_id a) q st).
Proof.
  unfold well_linked. simpl. intros Ha H. apply Forall_app. split; [exact H|].
  constructor; [|constructor]. exists a. auto.
Qed.

Lemma Author_save_linked (m : models) (d : author_data) (st : store) :
  well_linked st -> well_linked (snd (Author_save m d st)).
Proof.
  unfold Author_save. destruct (unique_fullname m && _); simpl;
    [auto | apply insert_author_linked].
Qed.

Lemma Quote_save_linked (m : models) (t : list string) (a : author_doc)
  (q : string) (st : store) :
  In a (db_authors st) ->
  well_linked st -> well_linked (snd (Quote_save m t a q st)).
Proof.
  unfold Quote_save. destruct (unique_quote m && _); simpl;
    [auto | apply insert_quote_linked].
Qed.

Lemma main_authors_linked (m : models) (data : list author_data) (st : store) :
  well_linked st -> well_linked (snd (Main.upload_author_data m data st)).
Proof.
  unfold Main.upload_author_data. apply for_each_invariant.
  intros d s. apply Author_save_linked.
Qed.

Lemma main_quotes_linked (m : models) (data : list quote_data) (st : store) :
  well_linked st -> well_linked (snd (Main.upload_quotes_data m data st)).
Proof.
  unfold Main.upload_quotes_data. apply for_each_invariant.
  intros q s Hs. cbv zeta. unfold bindDB, Author_objects_first, ret.
  destruct (List.find _ _) as [a|] eqn:E; [|exact Hs].
  apply Quote_save_linked; [|exact Hs]. now apply find_some in E.
Qed.

Lemma oop_authors_linked (m : models) (data : list author_data) (st : store) :
  well_linked st -> well_linked (snd (OopAsincio.upload_author_data m data st)).
Proof.
  unfold OopAsincio.upload_author_data. apply for_each_invariant.
  intros d s Hs. rewrite oop_author_step. simpl. unfold persist_author.
  destruct (stored_fullname _ _); [exact Hs | now apply insert_author_linked].
Qed.

Lemma oop_quotes_linked (m : models) (data : list quote_data) (st : store) :
  well_linked st -> well_linked (snd (OopAsincio.upload_quotes_data m data st)).
Proof.
  unfold OopAsincio.upload_quotes_data. apply for_each_invariant.
  intros q s Hs. cbv zeta. rewrite oop_quote_step. simpl. unfold persist_quote.
  destruct (List.find _ _) as [a|] eqn:E; [|exact Hs].
  destruct (stored_text _ _); [exact Hs|].
  apply insert_quote_linked; [|exact Hs]. now apply find_some in E.
Qed.

Lemma insert_authors_linked (data : list author_data) :
  forall st, well_linked st -> well_linked (insert_authors data st).
Proof.
  induction data as [|d rest IH]; intros st Hst; [exact Hst|].
  apply (IH (insert_author d st)). now apply insert_author_linked.
Qed.

Lemma motor_authors_linked (data : list author_data) (st : store) :
  well_linked st -> well_linked (snd (Motor.upload_author_data data st)).
Proof.
  intros Hst. unfold Motor.upload_author_data, Motor.insert_many.
  destruct data as [|d0 rest0]; [exact Hst|].
  apply (insert_authors_linked (d0 :: rest0) Hst).
Qed.

Lemma motor_quotes_linked (data : list quote_data) (st : store) :
  well_linked st -> well_linked (snd (Motor.upload_quotes_data data st)).
Proof.
  unfold Motor.upload_quotes_data. apply for_each_invariant.
  intros q s Hs. cbv zeta. unfold bindDB, Motor.find_one, Motor.insert_one, ret.
  destruct (List.find _ _) as [a|] eqn:E; [|exact Hs]. simpl.
  apply insert_quote_linked; [|exact Hs]. now apply find_some in E.
Qed.

(** X14.  No run of any of the five scripts stores a quote that refers to
    an author the store does not hold: when every stored quote refers to a
    stored author before the run, so it does after it, also when the run
    raises half way. *)
Theorem run_keeps_quotes_linked (fuel : nat) (w : web) (base : string)
  (m : models) (run' : DB unit) (st : store) :
  main fuel w base m = Some run' \/
  main_asincio fuel w base m = Some run' \/
  main_oop fuel w base m = Some run' \/
  main_oop_asincio fuel w base m = Some run' \/
  main_asincio_motor fuel w base = Some run' ->
  well_linked st ->
  well_linked (snd (run' st)).
Proof.
  intros [H|[H|[H|[H|H]]]] Hst.
  - eapply (run_invariant well_linked); [| |exact H|exact Hst].
    + intros d s. apply main_authors_linked.
    + intros d s. apply main_quotes_linked.
  - eapply (run_invariant well_linked); [| |exact H|exact Hst].
    + intros d s. apply main_authors_linked.
    + intros d s. apply main_quotes_linked.
  - eapply (run_invariant well_linked); [| |exact H|exact Hst].
    + intros d s. apply main_authors_linked.
    + intros d s. apply main_quotes_linked.
  - eapply (run_invariant well_linked); [| |exact H|exact Hst].
    + intros d s. apply oop_authors_linked.
    + intros d s. apply oop_quotes_linked.
  - eapply (run_invariant well_linked); [| |exact H|exact Hst].
    + intros d s. apply motor_authors_linked.
    + intros d s. apply motor_quotes_linked.
Qed.

Lemma run_keeps_quotes_linked_witness :
  exists run',
    main_asincio_motor 3 site "http://quotes" = Some run' /\
    well_linked einstein_store /\
    map quote_author (db_quotes (snd (run' einstein_store))) = [0; 0; 3; 0] /\
    well_linked (snd (run' einstein_store)).
Proof.
  eexists. split; [reflexivity|].
  assert (Hst : well_linked einstein_store).
  { repeat constructor.
    exists {| author_id := 0; author_fields := einstein |}.
    split; [now left | reflexivity]. }
  split; [exact Hst|]. split; [reflexivity|].
  apply (@run_keeps_quotes_linked 3 site "http://quotes" no_index _
           einstein_store); [|exact Hst].
  do 4 right. reflexivity.
Defined.

(** ** [parse_authors]: the first reference that fails *)

Lemma parse_authors_from_app (w : web) (links1 links2 : list author_link) :
  forall acc,
    parse_authors_from w (links1 ++ links2) acc
    = bind (parse_authors_from w links1 acc)
           (fun acc' => parse_authors_from w links2 acc').
Proof.
  induction links1 as [|a rest IH]; intros acc; simpl; [reflexivity|].
  destruct (get_soup w (author_info_url a)) as [soup|e]; simpl;
    [|reflexivity].
  destruct (parse_author soup) as [r|e]; simpl; [apply IH | reflexivity].
Qed.

Lemma parse_author_missing (soup : node) :
  find "h3" (Some "author-title") soup = None \/
  find "span" (Some "author-born-date") soup = None \/
  find "span" (Some "author-born-location") soup = None \/
  find "div" (Some "author-description") soup = None ->
  parse_author soup = Raise AttributeError.
Proof.
  unfold parse_author. intros H.
  destruct (find "h3" (Some "author-title") soup); simpl; [|reflexivity].
  destruct (find "span" (Some "author-born-date") soup); simpl;
    [|reflexivity].
  destruct (find "span" (Some "author-born-location") soup); simpl;
    [|reflexivity].
  destruct (find "div" (Some "author-description") soup); simpl;
    [|reflexivity].
  destruct H as [H|[H|[H|H]]]; discriminate.
Qed.

(** X15.  In the sequential scripts [parse_authors] raises the error of
    the first reference that fails and returns none of the records
    resolved before it: the connection error when that author page cannot
    be fetched, the attribute error when it lacks one of the four
    elements. *)
Theorem parse_authors_first_failure (w : web)
  (before after : list author_link) (a : author_link)
  (recs : list author_data) :
  Forall2 (resolved w) before recs ->
  (w (author_info_url a) = None ->
   parse_authors w (before ++ a :: after) = Raise ConnectionError) /\
  (forall soup,
      w (author_info_url a) = Some soup ->
      find "h3" (Some "author-title") soup = None \/
      find "span" (Some "author-born-date") soup = None \/
      find "span" (Some "author-born-location") soup = None \/
      find "div" (Some "author-description") soup = None ->
      parse_authors w (before ++ a :: after) = Raise AttributeError).
Proof.
  intros Hbefore.
  assert (Hb : parse_authors_from w before [] = Ok recs)
    by (now apply parse_authors_ok).
  unfold parse_authors. rewrite parse_authors_from_app, Hb. simpl.
  unfold get_soup. split.
  - intros Hw. now rewrite Hw.
  - intros soup Hw Hmiss. rewrite Hw. simpl.
    now rewrite (parse_author_missing _ Hmiss).
Qed.

Lemma parse_authors_first_failure_witness :
  parse_authors incomplete_site
    [ {| author_name := "Albert Einstein";
         author_info_url := "http://quotes/author/Albert-Einstein" |};
      {| author_name := "J.K. Rowling";
         author_info_url := "http://quotes/author/J-K-Rowling" |};
      {| author_name := "Jane Austen";
         author_info_url := "http://quotes/author/Jane-Austen" |} ]
  = Raise AttributeError.
Proof.
  assert (Hb : Forall2 (resolved incomplete_site)
                 [ {| author_name := "Albert Einstein";
                      author_info_url := "http://quotes/author/Albert-Einstein" |} ]
                 [einstein]).
  { apply parse_authors_ok. reflexivity. }
  apply (proj2 (@parse_authors_first_failure incomplete_site _
                  [ {| author_name := "Jane Austen";
                       author_info_url := "http://quotes/author/Jane-Austen" |} ]
                  {| author_name := "J.K. Rowling";
                     author_info_url := "http://quotes/author/J-K-Rowling" |}
                  [einstein] Hb)
           incomplete_author_page eq_refl).
  right. right. left. reflexivity.
Defined.

(** ** The five scripts on one store *)









